(** * HearItFresh: the Spotify curation helpers of [src/app/lib/spotify.ts]

    A shallow embedding of [createPlayList], [getArtistsAlbums], [getTracks]
    and [removeTracksFromPlaylists], and the properties of the track filter,
    the album quota, the batch aggregation and the error handling. *)

From Stdlib Require Import ZArith Ascii String.
From stdpp Require Import base list strings gmap.

Local Open Scope string_scope.
Local Open Scope list_scope.

(** ** JavaScript strings

    Names are byte strings.  [toLowerCase] lowers the letters [A]..[Z] and
    leaves every other byte alone, which is what [String.prototype.toLowerCase]
    does on ASCII text.  [includes] is [String.prototype.includes]: a
    contiguous-substring test. *)

Definition toLowerAscii (c : ascii) : ascii :=
  let n := N_of_ascii c in
  if ((65 <=? n) && (n <=? 90))%N then ascii_of_N (n + 32) else c.

Fixpoint toLowerCase (s : string) : string :=
  match s with
  | EmptyString => EmptyString
  | String c s' => String (toLowerAscii c) (toLowerCase s')
  end.

Fixpoint includes (s word : string) : bool :=
  String.prefix word s ||
  match s with
  | EmptyString => false
  | String _ s' => includes s' word
  end.

(** ** [Array.prototype.filter]

    The callback receives the element, its index and the array being
    filtered ([self]), which is the array as it was before filtering. *)

Fixpoint Array_filter_from {A} (callback : A → nat → list A → bool)
    (self : list A) (index : nat) (rest : list A) : list A :=
  match rest with
  | [] => []
  | x :: rest' =>
      if callback x index self
      then x :: Array_filter_from callback self (S index) rest'
      else Array_filter_from callback self (S index) rest'
  end.

Definition Array_filter {A} (callback : A → nat → list A → bool)
    (self : list A) : list A :=
  Array_filter_from callback self 0 self.

(** ** The keyword blacklist (the same literal in both filters) *)

Definition blacklistedWords : list string :=
  [ "remix"; "mix"; "edit"; "radio"; "- live"; " ver."; "live-"; "version";
    "tour"; "live"; "event"; "concert"; "tour" ].

(** [blacklistedWords.some((word) => trackName.includes(word))] with
    [trackName = name.toLowerCase()]. *)
Definition isBlacklisted (name : string) : bool :=
  let trackName := toLowerCase name in
  existsb (λ word, includes trackName word) blacklistedWords.

(** ** The track filter of [getTracks] *)

Record singleTrack := {
  name : string;
  albumName : string;
  uri : string;
}.

(** The callback of [subTracks.filter((track, index, self) => ...)]:
    the keyword test first, then the scan of [self[0 .. index-1]] for an
    exactly equal name. *)
Definition keepTrack (track : singleTrack) (index : nat)
    (self : list singleTrack) : bool :=
  if isBlacklisted (name track) then false
  else if existsb (λ earlier, bool_decide (name earlier = name track))
            (take index self)
  then false
  else true.

Definition trackFilter (subTracks : list singleTrack) : list singleTrack :=
  Array_filter keepTrack subTracks.

(** ** Values exchanged with the Spotify Web API client

    Only the fields the source reads are kept.  A thrown or rejected value is
    an [Error] object, told apart by its [name]. *)

Record JsError := {
  errName : string;
  errMessage : string;
}.

(** What reading [.id] of [undefined] throws. *)
Definition TypeError_reading_id : JsError :=
  {| errName := "TypeError";
     errMessage := "Cannot read properties of undefined (reading 'id')" |}.

Record ArtistObject := { artist_id : string }.

(** [_data.body.artists?.items]: [None] when [artists] is undefined. *)
Record SearchResponse := { body_artists_items : option (list ArtistObject) }.

Record AlbumSimplified := { album_id : string; album_name : string }.

Record ArtistAlbumsResponse := { body_items : list AlbumSimplified }.

Record TrackSimplified := { track_name : string; track_uri : string }.

Record AlbumFull := { full_name : string; tracks_items : list TrackSimplified }.

Record AlbumsResponse := { body_albums : list AlbumFull }.

(** The playlist object has both a bare [id] and a [uri]. *)
Record PlaylistResponse := {
  body_id : string;
  body_uri : string;
  body_external_urls_spotify : string;
  body_name : string;
}.

Record PlaylistOptions := { description : string; public : bool }.

Record SearchOptions := { search_limit : Z; search_offset : Z }.

Record AlbumOptions := {
  limit : Z;
  album_type : string;
  include_groups : string;
}.

Record TrackRef := { ref_uri : string }.

(** The calls made on [spotifyApi], and what each one resolves with. *)
Inductive Call :=
| searchArtists (query : string) (options : SearchOptions)
| getArtistAlbums (artistId : option string) (options : AlbumOptions)
| getAlbums (ids : list string)
| createPlaylist (title : string) (options : PlaylistOptions)
| removeTracksFromPlaylist (playlistId : string) (tracks : list TrackRef).

Definition Response (c : Call) : Type :=
  match c with
  | searchArtists _ _ => SearchResponse
  | getArtistAlbums _ _ => ArtistAlbumsResponse
  | getAlbums _ => AlbumsResponse
  | createPlaylist _ _ => PlaylistResponse
  | removeTracksFromPlaylist _ _ => unit
  end.

(** ** Async functions

    An async function body is a tree: it resolves, throws, awaits a call on
    the API client (and continues with the fulfilment or with the rejection),
    writes to [console.error], or sorts an array with the random comparator
    [() => Math.random() - 0.5]. *)

Inductive Async (A : Type) : Type :=
| Resolve (a : A)
| Throw (e : JsError)
| Await (c : Call) (k : JsError + Response c → Async A)
| ConsoleError (e : JsError) (k : Async A)
| SortRandom (items : list AlbumSimplified) (k : list AlbumSimplified → Async A).

Arguments Resolve {A} a.
Arguments Throw {A} e.
Arguments Await {A} c k.
Arguments ConsoleError {A} e k.
Arguments SortRandom {A} items k.

(** [await call]: a rejection is thrown at the point of the await. *)
Definition await (c : Call) : Async (Response c) :=
  Await c (λ r, match r with inl e => Throw e | inr x => Resolve x end).

Fixpoint Async_bind {A B} (f : A → Async B) (p : Async A) : Async B :=
  match p with
  | Resolve a => f a
  | Throw e => Throw e
  | Await c k => Await c (λ r, Async_bind f (k r))
  | ConsoleError e k => ConsoleError e (Async_bind f k)
  | SortRandom items k => SortRandom items (λ l, Async_bind f (k l))
  end.

#[global] Instance Async_mbind : MBind Async := @Async_bind.

(** [try { body } catch (err) { handler err }]: what the handler throws is
    not caught again. *)
Fixpoint tryCatch {A} (body : Async A) (handler : JsError → Async A) : Async A :=
  match body with
  | Resolve a => Resolve a
  | Throw e => handler e
  | Await c k => Await c (λ r, tryCatch (k r) handler)
  | ConsoleError e k => ConsoleError e (tryCatch k handler)
  | SortRandom items k => SortRandom items (λ l, tryCatch (k l) handler)
  end.

(** The world outside: the remote catalog answering each call, and the
    outcome of each random-comparator sort. *)
Record Runtime := {
  World : Type;
  spotifyApi : ∀ c : Call, World → (JsError + Response c) * World;
  randomSort : list AlbumSimplified → World → list AlbumSimplified * World;
}.

(** How a promise settles ([inl]: rejected, [inr]: fulfilled), together with
    the calls issued, in order, and the lines written to [console.error]. *)
Record Run (W A : Type) := {
  settled : JsError + A;
  final : W;
  calls : list Call;
  console : list JsError;
}.

Arguments settled {W A} r.
Arguments final {W A} r.
Arguments calls {W A} r.
Arguments console {W A} r.

Fixpoint run (rt : Runtime) {A} (p : Async A) (w : World rt) : Run (World rt) A :=
  match p with
  | Resolve a => {| settled := inr a; final := w; calls := []; console := [] |}
  | Throw e => {| settled := inl e; final := w; calls := []; console := [] |}
  | Await c k =>
      let r := run rt (k (spotifyApi rt c w).1) (spotifyApi rt c w).2 in
      {| settled := settled r; final := final r;
         calls := c :: calls r; console := console r |}
  | ConsoleError e k =>
      let r := run rt k w in
      {| settled := settled r; final := final r;
         calls := calls r; console := e :: console r |}
  | SortRandom items k =>
      run rt (k (randomSort rt items w).1) (randomSort rt items w).2
  end.

(** The run [r], after the call [c] was issued. *)
Definition issued {W A} (c : Call) (r : Run W A) : Run W A :=
  {| settled := settled r; final := final r;
     calls := c :: calls r; console := console r |}.

(** ** [createPlayList] *)

Inductive playlistType := new | old.

Record playlistDetails := {
  id : string;
  link : string;
  playlistName : string;
}.

(** A value of type [T | { isError: boolean; err: any }]. *)
Inductive OrError (T : Type) :=
| Value (v : T)
| isError (err : JsError).

Arguments Value {T} v.
Arguments isError {T} err.

Definition createPlayList (artists : string) (type : playlistType)
    : Async (OrError playlistDetails) :=
  let description :=
    match type with
    | new => "Listen To Something New From " +:+ artists
    | old => "Listen to songs from your favourite artists " +:+ artists
    end in
  tryCatch
    (data ← await (createPlaylist "PlayList Generated By HearItFresh"
                     {| description := description; public := true |});
     Resolve (Value {| id := body_uri data;
                       link := body_external_urls_spotify data;
                       playlistName := body_name data |}))
    (λ err, Resolve (isError err)).

(** ** [removeTracksFromPlaylists] *)

Definition removeTracksFromPlaylists (playlistId : string)
    (tracks : list TrackRef) : Async bool :=
  tryCatch
    (_ ← await (removeTracksFromPlaylist playlistId tracks);
     Resolve true)
    (λ error, ConsoleError error (Resolve false)).

(** ** [getArtistsAlbums] *)

(** The album quota.  [artistsLength] is an integer; [Math.floor] of the
    quotient of two integers is the floor division of [Z] whenever the
    divisor is not zero. *)
Definition maxAlbums (artistsLength : Z) : Z :=
  if (artistsLength =? 20)%Z then 5%Z
  else (100 / (artistsLength * 2))%Z.

(** [array.slice(0, end)]: a negative [end] counts from the end of the
    array, and the bounds are clamped to the array. *)
Definition Array_slice0 {A} (l : list A) (end_ : Z) : list A :=
  let len := Z.of_nat (length l) in
  let stop :=
    if (end_ <? 0)%Z then Z.max (len + end_) 0 else Z.min end_ len in
  take (Z.to_nat stop) l.

(** The callback of [data.body.items.filter((album) => ...)]. *)
Definition keepAlbum (album : AlbumSimplified) (index : nat)
    (self : list AlbumSimplified) : bool :=
  if isBlacklisted (album_name album) then false else true.

(** [_data.body.artists?.items[0].id]: [undefined] when [artists] is
    missing, a [TypeError] when the list of matches is empty. *)
Definition first_artist_id (_data : SearchResponse) : Async (option string) :=
  match body_artists_items _data with
  | None => Resolve None
  | Some [] => Throw TypeError_reading_id
  | Some (first :: _) => Resolve (Some (artist_id first))
  end.

(** What [getArtistsAlbums] resolves with: the album ids, or the caught
    error itself ([return err]). *)
Inductive AlbumIdsOrErr :=
| albumIds (ids : list string)
| caughtErr (err : JsError).

Definition getArtistsAlbums (artist : string) (artistsLength : Z)
    : Async AlbumIdsOrErr :=
  let maxAlbums := maxAlbums artistsLength in
  tryCatch
    (_data ← await (searchArtists artist
                      {| search_limit := 1%Z; search_offset := 0%Z |});
     artistId ← first_artist_id _data;
     let options := {| limit := 10%Z; album_type := "album";
                       include_groups := "album" |} in
     data ← await (getArtistAlbums artistId options);
     let result := Array_filter keepAlbum (body_items data) in
     if (maxAlbums >=? Z.of_nat (length result))%Z
     then Resolve (albumIds (album_id <$> result))
     else
       sortedAlbum ← SortRandom result Resolve;
       let randomlySelectedAlbum :=
         album_id <$> Array_slice0 sortedAlbum maxAlbums in
       Resolve (albumIds randomlySelectedAlbum))
    (λ err, Resolve (caughtErr err)).

(** ** [getTracks] *)

(** The [singleTrack] records pushed by the two nested [forEach] loops:
    album by album, and track by track inside each album. *)
Definition collectSubTracks (data : AlbumsResponse) : list singleTrack :=
  item ← body_albums data;
  (λ track, {| name := track_name track;
               albumName := full_name item;
               uri := track_uri track |}) <$> tracks_items item.

Section Aggregator.

(** [convertToSubArray] is imported from [./utils]; [getTracks] only
    iterates over what it returns. *)
Variable convertToSubArray : list string → list (list string).

(** The [for (const subArray of subArrays)] loop; [tracks] is the array
    the loop pushes each filtered batch to. *)
Fixpoint forSubArrays (subArrays : list (list string))
    (tracks : list (list singleTrack)) : Async (list (list singleTrack)) :=
  match subArrays with
  | [] => Resolve tracks
  | subArray :: rest =>
      data ← await (getAlbums subArray);
      let subTracks := collectSubTracks data in
      let subTracks := trackFilter subTracks in
      forSubArrays rest (tracks ++ [subTracks])
  end.

Definition getTracks (albums : list string)
    : Async (OrError (list singleTrack)) :=
  let subArrays := convertToSubArray albums in
  tryCatch
    (tracks ← forSubArrays subArrays [];
     Resolve (Value (concat tracks)))
    (λ err, Resolve (isError err)).

End Aggregator.

(** Modelled from the spec: the Batch Splitter [split(items, maxBatchSize)]
    of section 4.1, standing for [convertToSubArray] of [./utils], which is
    not among the source files.  Contiguous chunks of at most [maxBatchSize]
    items, in order; no chunk for an empty input. *)
Fixpoint split_fuel {T} (fuel : nat) (items : list T) (maxBatchSize : nat)
    : list (list T) :=
  match fuel, items with
  | O, _ | _, [] => []
  | S fuel', _ =>
      take maxBatchSize items
        :: split_fuel fuel' (drop maxBatchSize items) maxBatchSize
  end.

Definition split {T} (items : list T) (maxBatchSize : nat) : list (list T) :=
  split_fuel (length items) items maxBatchSize.

(** ** What the catalog answers

    The answers to the successive [getAlbums] calls of the loop of
    [getTracks], one per batch and each in the world left by the one before:
    all the responses when every call is fulfilled, or the first rejection. *)
Fixpoint fetchBatches (rt : Runtime) (subArrays : list (list string))
    (w : World rt) : (JsError + list AlbumsResponse) * World rt :=
  match subArrays with
  | [] => (inr [], w)
  | subArray :: rest =>
      match spotifyApi rt (getAlbums subArray) w with
      | (inl err, w') => (inl err, w')
      | (inr data, w') =>
          match fetchBatches rt rest w' with
          | (inl err, w'') => (inl err, w'')
          | (inr datas, w'') => (inr (data :: datas), w'')
          end
      end
  end.

(** ** Catalogs to run the functions against

    A catalog that answers from a script: the world is the number of calls
    answered so far, and the random-comparator sort reverses the array. *)
Definition scripted (answer : ∀ c : Call, nat → JsError + Response c) : Runtime :=
  {| World := nat;
     spotifyApi := λ c w, (answer c w, S w);
     randomSort := λ items w, (reverse items, w) |}.

Definition WebapiError (message : string) : JsError :=
  {| errName := "WebapiError"; errMessage := message |}.

(** The canned answer to each call: an artist named "Nobody" has no match;
    every other artist has the four albums below; every album has an
    "Intro" and a track named after the album. *)
Definition cannedAlbums : list AlbumSimplified :=
  [ {| album_id := "a1"; album_name := "Album (Remix)" |};
    {| album_id := "a2"; album_name := "Album" |};
    {| album_id := "a3"; album_name := "Album Live" |};
    {| album_id := "a4"; album_name := "B" |} ].

Definition cannedPlaylist : PlaylistResponse :=
  {| body_id := "37i9dQZF1DX";
     body_uri := "spotify:playlist:37i9dQZF1DX";
     body_external_urls_spotify := "https://open.spotify.com/playlist/37i9dQZF1DX";
     body_name := "PlayList Generated By HearItFresh" |}.

Definition cannedAlbum (albumId : string) : AlbumFull :=
  {| full_name := albumId;
     tracks_items :=
       [ {| track_name := "Intro"; track_uri := "spotify:track:intro:" +:+ albumId |};
         {| track_name := albumId; track_uri := "spotify:track:title:" +:+ albumId |} ] |}.

Definition cannedAnswer (c : Call) : Response c :=
  match c return Response c with
  | searchArtists query _ =>
      {| body_artists_items :=
           Some (if bool_decide (query = "Nobody") then []
                 else [ {| artist_id := "artist:" +:+ query |} ]) |}
  | getArtistAlbums _ _ => {| body_items := cannedAlbums |}
  | getAlbums ids => {| body_albums := cannedAlbum <$> ids |}
  | createPlaylist _ _ => cannedPlaylist
  | removeTracksFromPlaylist _ _ => ()
  end.

(** The first [budget] calls are fulfilled, the later ones rejected. *)
Definition onlineFor (budget : nat) : Runtime :=
  scripted (λ c answered,
    if (answered <? budget)%nat then inr (cannedAnswer c)
    else inl (WebapiError "Too Many Requests")).

(** Twenty-one album ids: two batches when the batch size is 20. *)
Definition twentyOneAlbums : list string :=
  [ "al01"; "al02"; "al03"; "al04"; "al05"; "al06"; "al07";
    "al08"; "al09"; "al10"; "al11"; "al12"; "al13"; "al14";
    "al15"; "al16"; "al17"; "al18"; "al19"; "al20"; "al21" ].

(** How many tracks of a list carry a given name. *)
Definition countName (n : string) (tracks : list singleTrack) : nat :=
  length (filter (λ track, name track = n) tracks).

(** ** Reference formulations, compared with the code below *)

(** The track filter as one pass that carries the set of the names seen so
    far, instead of the scan of the earlier part of the array that
    [keepTrack] makes for every track. *)
Fixpoint singlePassFilter (seen : gset string) (tracks : list singleTrack)
    : list singleTrack :=
  match tracks with
  | [] => []
  | track :: rest =>
      if isBlacklisted (name track) || bool_decide (name track ∈ seen)
      then singlePassFilter ({[name track]} ∪ seen) rest
      else track :: singlePassFilter ({[name track]} ∪ seen) rest
  end.

(** The blacklist without the entries that contain another entry ("remix",
    "- live", "live-") and without the second "tour". *)
Definition blacklistedRoots : list string :=
  [ "mix"; "edit"; "radio"; " ver."; "version"; "tour"; "live"; "event";
    "concert" ].

(** A catalog whose search response has no [artists] object. *)
Definition withoutArtistsObject : Runtime :=
  scripted (λ c _,
    match c return JsError + Response c with
    | searchArtists _ _ => inr {| body_artists_items := None |}
    | c' => inr (cannedAnswer c')
    end).

(** * Properties *)

(** ** Strings *)

Lemma append_String (c : ascii) (s t : string) :
  String c s +:+ t = String c (s +:+ t).
Proof. reflexivity. Qed.

Lemma prefix_spec (word s : string) :
  String.prefix word s = true ↔ ∃ post, s = word +:+ post.
Proof.
  revert s. induction word as [|c word IH]; intros [|d s]; simpl.
  - split; [intros _; by exists "" | done].
  - split; [intros _; by exists (String d s) | done].
  - split; [done | intros [post Hpost]; discriminate].
  - setoid_rewrite append_String.
    destruct (Ascii.ascii_dec c d) as [->|Hne].
    + rewrite IH. split; intros [post Hpost]; exists post; congruence.
    + split; [done | intros [post Hpost]; congruence].
Qed.

(** [includes] holds exactly of the contiguous substrings. *)
Lemma includes_spec (s word : string) :
  includes s word = true ↔ ∃ pre post, s = pre +:+ word +:+ post.
Proof.
  induction s as [|c s IH].
  - change (includes "" word) with (String.prefix word "" || false).
    rewrite orb_true_iff, prefix_spec. split.
    + intros [[post Hpost]|?]; [|done]. by exists "", post.
    + intros (pre & post & Heq). left.
      destruct pre; [by exists post | discriminate].
  - change (includes (String c s) word)
      with (String.prefix word (String c s) || includes s word).
    rewrite orb_true_iff, prefix_spec, IH. split.
    + intros [[post Hpost]|(pre & post & Heq)].
      * by exists "", post.
      * exists (String c pre), post. rewrite append_String. by rewrite Heq.
    + intros (pre & post & Heq). destruct pre as [|d pre].
      * left. by exists post.
      * right. exists pre, post. rewrite append_String in Heq. congruence.
Qed.

(** ** [Array.prototype.filter] *)

Section ArrayFilter.
Context {A : Type} (callback : A → nat → list A → bool) (self : list A).

Lemma Array_filter_from_sublist index rest :
  Array_filter_from callback self index rest `sublist_of` rest.
Proof.
  revert index. induction rest as [|x rest IH]; intros index; simpl.
  - constructor.
  - destruct (callback x index self); [by apply sublist_skip | by apply sublist_cons].
Qed.

Lemma elem_of_Array_filter_from index rest x :
  x ∈ Array_filter_from callback self index rest ↔
  ∃ j, rest !! j = Some x ∧ callback x (index + j) self = true.
Proof.
  revert index. induction rest as [|y rest IH]; intros index; simpl.
  - rewrite elem_of_nil. split; [done | by intros (j & ? & _)].
  - assert ((y = x ∧ callback x index self = true ∨
              (∃ j, rest !! j = Some x ∧ callback x (S index + j) self = true))
            ↔ ∃ j, (y :: rest) !! j = Some x ∧ callback x (index + j) self = true)
      as Hshift.
    { split.
      - intros [[-> Hcb]|(j & Hj & Hcb)].
        + exists 0. by rewrite Nat.add_0_r.
        + exists (S j). by rewrite Nat.add_succ_r.
      - intros ([|j] & Hj & Hcb); simpl in Hj.
        + left. rewrite Nat.add_0_r in Hcb. by simplify_eq.
        + right. exists j. by rewrite Nat.add_succ_r in Hcb. }
    rewrite <- Hshift. destruct (callback y index self) eqn:Hy.
    + rewrite elem_of_cons, IH. split.
      * intros [->|?]; [by left | by right].
      * intros [[-> _]|?]; [by left | by right].
    + rewrite IH. split; [by right |].
      intros [[-> Hcb]|?]; [congruence | done].
Qed.

Lemma elem_of_Array_filter x :
  x ∈ Array_filter callback self ↔
  ∃ i, self !! i = Some x ∧ callback x i self = true.
Proof. unfold Array_filter. by rewrite elem_of_Array_filter_from. Qed.

Lemma Array_filter_sublist : Array_filter callback self `sublist_of` self.
Proof. apply Array_filter_from_sublist. Qed.

End ArrayFilter.

Lemma existsb_true_iff {A} (f : A → bool) (l : list A) :
  existsb f l = true ↔ ∃ x, x ∈ l ∧ f x = true.
Proof. rewrite existsb_exists. by setoid_rewrite list_elem_of_In. Qed.

Lemma existsb_false_iff {A} (f : A → bool) (l : list A) :
  existsb f l = false ↔ ∀ x, x ∈ l → f x = false.
Proof.
  rewrite <- not_true_iff_false, existsb_true_iff. split.
  - intros Hno x Hx. apply not_true_iff_false. intros Hfx. apply Hno. eauto.
  - intros Hall (x & Hx & Hfx). specialize (Hall x Hx). congruence.
Qed.

(** ** The track filter *)

Example trackFilter_example :
  let track n := {| name := n; albumName := "A Night at the Opera";
                    uri := "spotify:track:" +:+ n |} in
  trackFilter [ track "Intro"; track "Love of My Life - Live"; track "Intro";
                track "39"; track "Bohemian Rhapsody (Radio Edit)"; track "39" ]
    = [ track "Intro"; track "39" ].
Proof. vm_compute. reflexivity. Qed.

Example split_example :
  split [1; 2; 3; 4; 5] 2 = [[1; 2]; [3; 4]; [5]] ∧ split (@nil nat) 20 = [].
Proof. split; reflexivity. Qed.

(** A name is blacklisted exactly when its lower-cased form contains one of
    the blacklisted words. *)
Lemma isBlacklisted_spec (n : string) :
  isBlacklisted n = true ↔
  ∃ word pre post,
    word ∈ blacklistedWords ∧ toLowerCase n = pre +:+ word +:+ post.
Proof.
  unfold isBlacklisted. rewrite existsb_true_iff. split.
  - intros (word & Hin & Hinc). apply includes_spec in Hinc as (pre & post & Heq).
    by exists word, pre, post.
  - intros (word & pre & post & Hin & Heq). exists word. split; [done|].
    apply includes_spec. by exists pre, post.
Qed.

(** A track is kept exactly when its name is not blacklisted and no track
    at a smaller index of the array being filtered has the same name. *)
Lemma keepTrack_true (track : singleTrack) (index : nat) (self : list singleTrack) :
  keepTrack track index self = true ↔
  isBlacklisted (name track) = false ∧
  ∀ j earlier, j < index → self !! j = Some earlier → name earlier ≠ name track.
Proof.
  unfold keepTrack. destruct (isBlacklisted (name track)).
  { split; [done | by intros [? _]]. }
  destruct (existsb _ _) eqn:Hscan.
  - split; [done|]. intros [_ Hfresh].
    apply existsb_true_iff in Hscan as (earlier & Hin & Heq).
    apply elem_of_take in Hin as (j & Hj & Hlt).
    apply bool_decide_eq_true in Heq. by destruct (Hfresh j earlier).
  - split; [|done]. intros _. split; [done|]. intros j earlier Hlt Hj Heq.
    rewrite existsb_false_iff in Hscan.
    assert (earlier ∈ take index self) as Hin by (apply elem_of_take; eauto).
    apply Hscan in Hin. by apply bool_decide_eq_false in Hin.
Qed.

Lemma trackFilter_names_from (self : list singleTrack) index rest :
  (∀ j, rest !! j = self !! (index + j)) →
  NoDup (name <$> Array_filter_from keepTrack self index rest).
Proof.
  revert index. induction rest as [|x rest IH]; intros index Hrest; simpl.
  { constructor. }
  assert (∀ j, rest !! j = self !! (S index + j)) as Hrest'.
  { intros j. replace (S index + j) with (index + S j) by lia.
    by rewrite <- Hrest. }
  destruct (keepTrack x index self) eqn:Hx; [|by apply IH].
  rewrite fmap_cons. apply NoDup_cons. split; [|by apply IH].
  intros (y & Hname & Hy)%list_elem_of_fmap.
  apply elem_of_Array_filter_from in Hy as (j & Hj & Hkeep).
  apply keepTrack_true in Hkeep as [_ Hfresh].
  apply (Hfresh index x); [lia | | done].
  specialize (Hrest 0). by rewrite Nat.add_0_r in Hrest.
Qed.

(** C1.  For every sequence of tracks, the filtered sequence has no two
    items with the same name (compared literally); every track that is not
    keyword-excluded and is the earliest of its name is kept, and every kept
    track is such an earliest occurrence; and the result is a subsequence of
    the input, in the input's order. *)
Theorem trackFilter_dedup_first_subsequence (S : list singleTrack) :
  NoDup (name <$> trackFilter S) ∧
  (∀ i track,
     S !! i = Some track →
     isBlacklisted (name track) = false →
     (∀ j earlier, j < i → S !! j = Some earlier → name earlier ≠ name track) →
     track ∈ trackFilter S) ∧
  (∀ track,
     track ∈ trackFilter S →
     ∃ i, S !! i = Some track ∧
          isBlacklisted (name track) = false ∧
          ∀ j earlier, j < i → S !! j = Some earlier → name earlier ≠ name track) ∧
  trackFilter S `sublist_of` S.
Proof.
  unfold trackFilter. repeat split.
  - by apply trackFilter_names_from.
  - intros i track Hi Hbl Hfresh. apply elem_of_Array_filter.
    exists i. split; [done|]. by apply keepTrack_true.
  - intros track (i & Hi & Hkeep)%elem_of_Array_filter.
    apply keepTrack_true in Hkeep as [Hbl Hfresh]. by exists i.
  - apply Array_filter_sublist.
Qed.

(** Among tracks whose name is not blacklisted, a track is dropped exactly
    when a track at a smaller index has literally the same name. *)
Lemma keepTrack_false_repetition (track : singleTrack) (index : nat)
    (self : list singleTrack) :
  isBlacklisted (name track) = false →
  keepTrack track index self = false ↔
  ∃ j earlier, j < index ∧ self !! j = Some earlier ∧ name earlier = name track.
Proof.
  intros Hbl. unfold keepTrack. rewrite Hbl.
  destruct (existsb _ _) eqn:Hscan.
  - split; [intros _ | done].
    apply existsb_true_iff in Hscan as (earlier & Hin & Heq).
    apply elem_of_take in Hin as (j & Hj & Hlt).
    apply bool_decide_eq_true in Heq. by exists j, earlier.
  - split; [done|]. intros (j & earlier & Hlt & Hj & Heq).
    rewrite existsb_false_iff in Hscan.
    assert (earlier ∈ take index self) as Hin by (apply elem_of_take; eauto).
    apply Hscan in Hin. by apply bool_decide_eq_false in Hin.
Qed.

(** C5.  The two tests of the track filter treat case differently.  The
    keyword test sees the name only through its lower-cased form and rejects
    it when that form contains a blacklisted word, so it is case-insensitive
    (an upper-case REMIX is rejected).  The repetition test compares names
    literally, so two tracks whose names differ only in case both survive. *)
Theorem trackFilter_case_asymmetry :
  (∀ n1 n2, toLowerCase n1 = toLowerCase n2 → isBlacklisted n1 = isBlacklisted n2) ∧
  (∀ n, isBlacklisted n = true ↔
        ∃ word pre post,
          word ∈ blacklistedWords ∧ toLowerCase n = pre +:+ word +:+ post) ∧
  isBlacklisted "Yellow (REMIX)" = true ∧
  (∀ track index self,
     isBlacklisted (name track) = false →
     keepTrack track index self = false ↔
     ∃ j earlier, j < index ∧ self !! j = Some earlier ∧ name earlier = name track) ∧
  (let a := {| name := "Yellow"; albumName := "Parachutes"; uri := "spotify:track:1" |} in
   let b := {| name := "YELLOW"; albumName := "Live 2003"; uri := "spotify:track:2" |} in
   name a ≠ name b ∧
   toLowerCase (name a) = toLowerCase (name b) ∧
   trackFilter [a; b] = [a; b]).
Proof.
  split; [|split; [|split; [|split]]].
  - intros n1 n2 Heq. unfold isBlacklisted. by rewrite Heq.
  - apply isBlacklisted_spec.
  - vm_compute. reflexivity.
  - apply keepTrack_false_repetition.
  - cbv zeta. split; [done|]. split; vm_compute; reflexivity.
Qed.

(** ** The album quota *)

(** C2.  For a positive number of artists [n], the quota is 5 when [n] is
    20 and otherwise the floor of [100 / (n * 2)], that is the integer [q]
    with [q * (n * 2) <= 100 < (q + 1) * (n * 2)]; it is 5 for 20 artists
    and 10 for 5 artists. *)
Theorem maxAlbums_quota (n : Z) :
  (0 < n)%Z →
  (n = 20%Z → maxAlbums n = 5%Z) ∧
  (n ≠ 20%Z →
     maxAlbums n = (100 / (n * 2))%Z ∧
     (maxAlbums n * (n * 2) ≤ 100 < (maxAlbums n + 1) * (n * 2))%Z) ∧
  maxAlbums 20 = 5%Z ∧
  maxAlbums 5 = 10%Z.
Proof.
  intros Hpos. unfold maxAlbums. repeat split.
  - by intros ->.
  - destruct (Z.eqb_spec n 20); done.
  - destruct (Z.eqb_spec n 20); [done|].
    pose proof (Z.div_mod 100 (n * 2)) as Hdm.
    pose proof (Z.mod_pos_bound 100 (n * 2)) as Hmod. lia.
  - destruct (Z.eqb_spec n 20); [done|].
    pose proof (Z.div_mod 100 (n * 2)) as Hdm.
    pose proof (Z.mod_pos_bound 100 (n * 2)) as Hmod. lia.
Qed.

Lemma maxAlbums_quota_witness :
  (0 < 5)%Z ∧ maxAlbums 5 = (100 / (5 * 2))%Z.
Proof.
  split; [lia|].
  destruct (maxAlbums_quota 5) as (_ & Hfloor & _); [lia|].
  apply Hfloor. lia.
Defined.

(** ** [createPlayList] and [removeTracksFromPlaylists] *)

(** C7.  [createPlayList] issues exactly one call: the creation of a public
    playlist titled "PlayList Generated By HearItFresh", described as
    "Listen To Something New From {artists}" in mode [new] and as
    "Listen to songs from your favourite artists {artists}" in mode [old].
    Its promise is always fulfilled, never rejected; when the catalog rejects
    the call with [err] the value is [{ isError: true, err }].  For
    "The Beatles, Queen" in mode [new] the description is
    "Listen To Something New From The Beatles, Queen". *)
Theorem createPlayList_request_and_failure (rt : Runtime) (w : World rt)
    (artists : string) :
  let title := "PlayList Generated By HearItFresh" in
  calls (run rt (createPlayList artists new) w) =
    [createPlaylist title
       {| description := "Listen To Something New From " +:+ artists;
          public := true |}] ∧
  calls (run rt (createPlayList artists old) w) =
    [createPlaylist title
       {| description := "Listen to songs from your favourite artists " +:+ artists;
          public := true |}] ∧
  (∀ type, ∃ v, settled (run rt (createPlayList artists type) w) = inr v) ∧
  (∀ type options err,
     calls (run rt (createPlayList artists type) w) = [createPlaylist title options] →
     (spotifyApi rt (createPlaylist title options) w).1 = inl err →
     settled (run rt (createPlayList artists type) w) = inr (isError err)) ∧
  calls (run rt (createPlayList "The Beatles, Queen" new) w) =
    [createPlaylist title
       {| description := "Listen To Something New From The Beatles, Queen";
          public := true |}].
Proof.
  assert (∀ arts type, ∃ options,
            calls (run rt (createPlayList arts type) w) =
              [createPlaylist "PlayList Generated By HearItFresh" options] ∧
            options =
              {| description :=
                   match type with
                   | new => "Listen To Something New From " +:+ arts
                   | old => "Listen to songs from your favourite artists " +:+ arts
                   end;
                 public := true |}) as Hcall.
  { intros arts type. eexists. split; [|reflexivity].
    unfold createPlayList. cbn.
    by destruct (spotifyApi rt _ w) as [[err|data] w']. }
  cbv zeta. split; [|split; [|split; [|split]]].
  - by destruct (Hcall artists new) as (? & -> & ->).
  - by destruct (Hcall artists old) as (? & -> & ->).
  - intros type. unfold createPlayList. cbn.
    destruct (spotifyApi rt _ w) as [[err|data] w']; cbn; eauto.
  - intros type options err Hcalls Hrej. unfold createPlayList in *.
    cbn in Hcalls |- *. injection Hcalls as <-.
    destruct (spotifyApi rt _ w) as [[err'|data] w']; cbn in *; congruence.
  - by destruct (Hcall "The Beatles, Queen" new) as (? & -> & ->).
Qed.

(** C9.  [removeTracksFromPlaylists] issues the removal call; when the call
    is fulfilled it resolves with [true] and logs nothing; when the call is
    rejected it writes the cause to [console.error] and resolves with
    [false].  Its promise is never rejected. *)
Theorem removeTracksFromPlaylists_boolean (rt : Runtime) (w : World rt)
    (playlistId : string) (tracks : list TrackRef) :
  let r := run rt (removeTracksFromPlaylists playlistId tracks) w in
  calls r = [removeTracksFromPlaylist playlistId tracks] ∧
  match (spotifyApi rt (removeTracksFromPlaylist playlistId tracks) w).1 with
  | inr _ => settled r = inr true ∧ console r = []
  | inl cause => settled r = inr false ∧ console r = [cause]
  end.
Proof.
  cbv zeta. unfold removeTracksFromPlaylists. cbn.
  destruct (spotifyApi rt _ w) as [[cause|ack] w']; cbn; done.
Qed.

(** C10.  When the creation call is fulfilled with [data], the details
    returned by [createPlayList] carry [data.body.uri] in [id] and the
    external Spotify URL in [link]; a later mutation keyed on that [id], such
    as [removeTracksFromPlaylists], is issued with the URI. *)
Theorem createPlayList_id_is_uri (rt : Runtime) (w : World rt)
    (artists : string) (type : playlistType) (title : string)
    (options : PlaylistOptions) (data : PlaylistResponse) :
  calls (run rt (createPlayList artists type) w) = [createPlaylist title options] →
  (spotifyApi rt (createPlaylist title options) w).1 = inr data →
  ∃ details,
    settled (run rt (createPlayList artists type) w) = inr (Value details) ∧
    id details = body_uri data ∧
    link details = body_external_urls_spotify data ∧
    ∀ tracks w2,
      calls (run rt (removeTracksFromPlaylists (id details) tracks) w2) =
        [removeTracksFromPlaylist (body_uri data) tracks].
Proof.
  intros Hcalls Hok. unfold createPlayList in *. cbn in Hcalls |- *.
  injection Hcalls as <- <-.
  destruct (spotifyApi rt _ w) as [[err|data'] w']; cbn in *; [done|].
  injection Hok as ->. eexists. repeat split.
  intros tracks w2. unfold removeTracksFromPlaylists. cbn.
  by destruct (spotifyApi rt _ w2) as [[cause|ack] w3].
Qed.

Lemma createPlayList_id_is_uri_witness :
  ∃ details,
    settled (run (onlineFor 1) (createPlayList "Queen" old) 0) = inr (Value details) ∧
    id details = "spotify:playlist:37i9dQZF1DX" ∧
    id details ≠ body_id cannedPlaylist.
Proof.
  destruct (createPlayList_id_is_uri (onlineFor 1) 0 "Queen" old
              "PlayList Generated By HearItFresh"
              {| description := "Listen to songs from your favourite artists Queen";
                 public := true |}
              cannedPlaylist eq_refl eq_refl)
    as (details & Hsettled & Hid & _).
  exists details. split; [exact Hsettled|]. split; [exact Hid|].
  rewrite Hid. vm_compute. discriminate.
Defined.

(** ** [getArtistsAlbums] *)

(** C8, as amended.  When the artist search is fulfilled with an empty list
    of matches, [getArtistsAlbums] issues no further call and its promise is
    fulfilled (not rejected) with the error caught by its handler: the
    [TypeError] raised by reading [id] of the missing first match.  No
    error named ArtistNotFound is produced. *)
Theorem getArtistsAlbums_no_match (rt : Runtime) (w w1 : World rt)
    (artist : string) (artistsLength : Z) (_data : SearchResponse) :
  let search := searchArtists artist {| search_limit := 1; search_offset := 0 |} in
  spotifyApi rt search w = (inr _data, w1) →
  body_artists_items _data = Some [] →
  let r := run rt (getArtistsAlbums artist artistsLength) w in
  settled r = inr (caughtErr TypeError_reading_id) ∧
  errName TypeError_reading_id = "TypeError" ∧
  calls r = [search] ∧
  final r = w1.
Proof.
  intros search Hsearch Hnone. unfold getArtistsAlbums. cbn.
  fold search. rewrite Hsearch. cbn.
  unfold first_artist_id. rewrite Hnone. cbn. done.
Qed.

Lemma getArtistsAlbums_no_match_witness :
  settled (run (onlineFor 2) (getArtistsAlbums "Nobody" 20) 0)
    = inr (caughtErr TypeError_reading_id).
Proof.
  apply (getArtistsAlbums_no_match (onlineFor 2) 0 1 "Nobody" 20
           {| body_artists_items := Some [] |}); reflexivity.
Defined.

(** C8, as stated, fails: for an artist without a match the value returned
    is the caught [TypeError], and neither the value nor a rejection is an
    error named ArtistNotFound. *)
Lemma getArtistsAlbums_no_match_not_ArtistNotFound :
  let r := run (onlineFor 2) (getArtistsAlbums "Nobody" 20) 0 in
  settled r = inr (caughtErr TypeError_reading_id) ∧
  ¬ ∃ err, errName err = "ArtistNotFound" ∧
           (settled r = inr (caughtErr err) ∨ settled r = inl err).
Proof.
  cbv zeta.
  assert (settled (run (onlineFor 2) (getArtistsAlbums "Nobody" 20) 0)
            = inr (caughtErr TypeError_reading_id)) as Hrun by reflexivity.
  split; [exact Hrun|]. rewrite Hrun.
  intros (err & Hname & [Heq|Heq]); [|discriminate].
  injection Heq as <-. discriminate.
Qed.

(** *** Running an [await] inside a [try] block *)

Lemma run_try_await_fulfilled (rt : Runtime) {A} (c : Call)
    (k : Response c → Async A) (handler : JsError → Async A)
    (w w' : World rt) (x : Response c) :
  spotifyApi rt c w = (inr x, w') →
  run rt (tryCatch (await c ≫= k) handler) w
    = issued c (run rt (tryCatch (k x) handler) w').
Proof. intros Hc. cbn. by rewrite Hc. Qed.

Lemma run_try_await_rejected (rt : Runtime) {A} (c : Call)
    (k : Response c → Async A) (handler : JsError → Async A)
    (w w' : World rt) (err : JsError) :
  spotifyApi rt c w = (inl err, w') →
  run rt (tryCatch (await c ≫= k) handler) w
    = issued c (run rt (handler err) w').
Proof. intros Hc. cbn. by rewrite Hc. Qed.

Lemma Array_filter_keepAlbum (items : list AlbumSimplified) :
  Array_filter keepAlbum items
    = filter (λ album, isBlacklisted (album_name album) = false) items.
Proof.
  unfold Array_filter. generalize 0 at 1. generalize items at 1.
  induction items as [|album items IH]; intros self index; simpl; [done|].
  rewrite filter_cons, IH. unfold keepAlbum.
  destruct (isBlacklisted (album_name album)); by case_decide.
Qed.

Lemma Array_slice0_take {A} (l : list A) (end_ : Z) :
  (0 ≤ end_)%Z → Array_slice0 l end_ = take (Z.to_nat end_) l.
Proof.
  intros Hend. unfold Array_slice0.
  destruct (Z.ltb_spec end_ 0); [lia|].
  destruct (Z.le_ge_cases end_ (Z.of_nat (length l))).
  - by rewrite Z.min_l.
  - rewrite Z.min_r, Nat2Z.id by done. rewrite !take_ge; [done|lia|lia].
Qed.

Lemma maxAlbums_nonneg (n : Z) : (0 < n)%Z → (0 ≤ maxAlbums n)%Z.
Proof.
  intros Hn. unfold maxAlbums. destruct (n =? 20)%Z; [lia|].
  apply Z.div_pos; lia.
Qed.

(** C6.  With a positive number of artists, a random-comparator sort that
    permutes its array, a search that finds an artist and an album request
    that is fulfilled: the albums whose title is not blacklisted survive;
    when their number is at most the quota all their ids are returned, in
    order; otherwise exactly quota ids are returned, of albums drawn from the
    survivors; in both cases at most min(quota, survivors) ids.  For the
    albums "Album (Remix)", "Album", "Album Live", "B" and 20 artists the
    ids of "Album" and "B" are returned. *)
Theorem getArtistsAlbums_selection (rt : Runtime) (w w1 w2 : World rt)
    (artist : string) (n : Z) (_data : SearchResponse)
    (first : ArtistObject) (others : list ArtistObject)
    (data : ArtistAlbumsResponse) :
  (0 < n)%Z →
  (∀ items w', (randomSort rt items w').1 ≡ₚ items) →
  spotifyApi rt (searchArtists artist {| search_limit := 1; search_offset := 0 |}) w
    = (inr _data, w1) →
  body_artists_items _data = Some (first :: others) →
  spotifyApi rt
    (getArtistAlbums (Some (artist_id first))
       {| limit := 10; album_type := "album"; include_groups := "album" |}) w1
    = (inr data, w2) →
  let surviving :=
    filter (λ album, isBlacklisted (album_name album) = false) (body_items data) in
  let quota := maxAlbums n in
  ∃ ids,
    settled (run rt (getArtistsAlbums artist n) w) = inr (albumIds ids) ∧
    ((Z.of_nat (length surviving) ≤ quota)%Z → ids = album_id <$> surviving) ∧
    ((quota < Z.of_nat (length surviving))%Z →
       Z.of_nat (length ids) = quota ∧
       ∃ chosen, ids = album_id <$> chosen ∧ chosen ⊆+ surviving) ∧
    (Z.of_nat (length ids) ≤ Z.min quota (Z.of_nat (length surviving)))%Z ∧
    (n = 20%Z →
     album_name <$> body_items data = ["Album (Remix)"; "Album"; "Album Live"; "B"] →
     ∃ remix album live b,
       body_items data = [remix; album; live; b] ∧
       ids = [album_id album; album_id b]).
Proof.
  intros Hn Hperm Hsearch Hfirst Halbums surviving quota.
  pose proof (maxAlbums_nonneg n Hn) as Hquota. fold quota in Hquota.
  remember (run rt (getArtistsAlbums artist n) w) as r eqn:Hr.
  unfold getArtistsAlbums in Hr. cbv zeta in Hr.
  rewrite (run_try_await_fulfilled rt
             (searchArtists artist {| search_limit := 1; search_offset := 0 |})
             _ _ w w1 _data Hsearch) in Hr.
  unfold first_artist_id in Hr at 1. rewrite Hfirst in Hr.
  change (Resolve (Some (artist_id first)) ≫= ?k)
    with (k (Some (artist_id first))) in Hr.
  cbv beta in Hr.
  rewrite (run_try_await_fulfilled rt
             (getArtistAlbums (Some (artist_id first))
                {| limit := 10; album_type := "album"; include_groups := "album" |})
             _ _ w1 w2 data Halbums) in Hr.
  rewrite Array_filter_keepAlbum in Hr. fold surviving quota in Hr.
  assert (n = 20%Z →
          album_name <$> body_items data = ["Album (Remix)"; "Album"; "Album Live"; "B"] →
          (Z.of_nat (length surviving) ≤ quota)%Z ∧
          ∃ remix album live b,
            body_items data = [remix; album; live; b] ∧ surviving = [album; b])
    as Hscenario.
  { intros -> Hnames. subst surviving quota.
    destruct (body_items data) as [|remix [|album [|live [|b [|? ?]]]]];
      try discriminate Hnames.
    injection Hnames as Hn1 Hn2 Hn3 Hn4.
    rewrite !filter_cons, filter_nil, Hn1, Hn2, Hn3, Hn4.
    split; [vm_compute; discriminate|]. by exists remix, album, live, b. }
  destruct (Z.geb_spec quota (Z.of_nat (length surviving))) as [Hle|Hgt].
  - exists (album_id <$> surviving). subst r. cbn. rewrite length_fmap.
    split; [done|]. split; [done|]. split; [lia|]. split; [lia|].
    intros H20 Hnames.
    destruct (Hscenario H20 Hnames) as (_ & remix & album & live & b & Hitems & ->).
    by exists remix, album, live, b.
  - cbn in Hr. set (sorted := (randomSort rt surviving w2).1) in Hr.
    assert (sorted ≡ₚ surviving) as Hsorted by apply Hperm.
    rewrite Array_slice0_take in Hr by done.
    exists (album_id <$> take (Z.to_nat quota) sorted). subst r. cbn.
    assert (length sorted = length surviving) as Hlen by by rewrite Hsorted.
    rewrite length_fmap, length_take, Hlen.
    split; [done|]. split; [lia|]. split; [|split; [lia|]].
    + intros _. split; [lia|].
      exists (take (Z.to_nat quota) sorted). split; [done|].
      rewrite <- Hsorted. apply sublist_submseteq, sublist_take.
    + intros H20 Hnames. destruct (Hscenario H20 Hnames) as [Hle' _]. lia.
Qed.

Lemma getArtistsAlbums_selection_witness :
  ∃ ids,
    settled (run (onlineFor 5) (getArtistsAlbums "Queen" 50) 0) = inr (albumIds ids) ∧
    Z.of_nat (length ids) = 1%Z.
Proof.
  destruct (getArtistsAlbums_selection (onlineFor 5) 0 1 2 "Queen" 50
              {| body_artists_items := Some [ {| artist_id := "artist:Queen" |} ] |}
              {| artist_id := "artist:Queen" |} []
              {| body_items := cannedAlbums |})
    as (ids & Hsettled & _ & Hquota & _).
  - lia.
  - intros items w'. apply reverse_Permutation.
  - reflexivity.
  - reflexivity.
  - reflexivity.
  - exists ids. split; [exact Hsettled|].
    destruct Hquota as [Hlen _]; [vm_compute; reflexivity|].
    rewrite Hlen. reflexivity.
Defined.

(** ** [getTracks] *)

Lemma fetchBatches_app (rt : Runtime) (pre post : list (list string))
    (w : World rt) :
  fetchBatches rt (pre ++ post) w =
    match fetchBatches rt pre w with
    | (inl err, w1) => (inl err, w1)
    | (inr ds, w1) =>
        match fetchBatches rt post w1 with
        | (inl err, w2) => (inl err, w2)
        | (inr ds', w2) => (inr (ds ++ ds')%list, w2)
        end
    end.
Proof.
  revert w. induction pre as [|b pre IH]; intros w; simpl.
  - by destruct (fetchBatches rt post w) as [[err|ds'] w2].
  - destruct (spotifyApi rt (getAlbums b) w) as [[err|data] w1]; [done|].
    rewrite IH. destruct (fetchBatches rt pre w1) as [[err|ds] w2]; [done|].
    by destruct (fetchBatches rt post w2) as [[err|ds'] w3].
Qed.

(** The loop inside the [try] block: when every batch is fetched, the
    filtered batches are appended to [tracks] in batch order and one call was
    issued per batch; at the first rejection the handler takes over. *)
Lemma run_try_forSubArrays (rt : Runtime) {A}
    (k : list (list singleTrack) → Async A) (handler : JsError → Async A)
    (subArrays : list (list string)) (tracks : list (list singleTrack))
    (w : World rt) :
  match fetchBatches rt subArrays w with
  | (inr ds, w') =>
      run rt (tryCatch (forSubArrays subArrays tracks ≫= k) handler) w =
        foldr issued
          (run rt (tryCatch
                     (k (tracks ++ ((λ data, trackFilter (collectSubTracks data)) <$> ds))%list)
                     handler) w')
          (getAlbums <$> subArrays)
  | (inl err, w') =>
      settled (run rt (tryCatch (forSubArrays subArrays tracks ≫= k) handler) w)
        = settled (run rt (handler err) w') ∧
      final (run rt (tryCatch (forSubArrays subArrays tracks ≫= k) handler) w)
        = final (run rt (handler err) w')
  end.
Proof.
  revert tracks w. induction subArrays as [|b rest IH]; intros tracks w.
  - cbn. by rewrite app_nil_r.
  - cbn. destruct (spotifyApi rt (getAlbums b) w) as [[err|data] w1]; cbn; [done|].
    specialize (IH (tracks ++ [trackFilter (collectSubTracks data)]) w1).
    destruct (fetchBatches rt rest w1) as [[err|ds] w2].
    + exact IH.
    + cbn in IH |- *. rewrite <- app_assoc in IH. cbn in IH.
      unfold mbind, Async_mbind in IH |- *. by rewrite IH.
Qed.

(** *** Counting the tracks of a name *)

Lemma countName_app (n : string) (l1 l2 : list singleTrack) :
  countName n (l1 ++ l2) = countName n l1 + countName n l2.
Proof. unfold countName. by rewrite filter_app, length_app. Qed.

Lemma countName_absent (n : string) (l : list singleTrack) :
  n ∉ name <$> l → countName n l = 0.
Proof.
  unfold countName. induction l as [|t l IH]; intros Hn; [done|].
  rewrite fmap_cons, not_elem_of_cons in Hn. destruct Hn as [Hne Hn].
  rewrite filter_cons. case_decide; [congruence | by apply IH].
Qed.

Lemma countName_NoDup (n : string) (l : list singleTrack) :
  NoDup (name <$> l) → (countName n l ≤ 1)%nat.
Proof.
  induction l as [|t l IH]; intros Hnd; [unfold countName; simpl; lia|].
  rewrite fmap_cons in Hnd. apply NoDup_cons in Hnd as [Hfresh Hnd].
  change (t :: l) with ([t] ++ l). rewrite countName_app.
  unfold countName at 1. rewrite filter_cons, filter_nil.
  case_decide as Hname; simpl; [|by apply IH].
  rewrite countName_absent; [lia | congruence].
Qed.

Lemma countName_present (n : string) (l : list singleTrack) (t : singleTrack) :
  t ∈ l → name t = n → (1 ≤ countName n l)%nat.
Proof.
  intros Hin Hname. unfold countName.
  assert (t ∈ filter (λ track, name track = n) l) as Hf
    by by apply list_elem_of_filter.
  destruct (filter _ l); [by apply elem_of_nil in Hf | simpl; lia].
Qed.

Lemma first_occurrence (n : string) (l : list singleTrack) :
  n ∈ name <$> l →
  ∃ i t, l !! i = Some t ∧ name t = n ∧
         ∀ j earlier, j < i → l !! j = Some earlier → name earlier ≠ n.
Proof.
  induction l as [|a l IH]; intros Hin.
  { by apply elem_of_nil in Hin. }
  destruct (decide (name a = n)) as [Ha|Ha].
  - exists 0, a. split; [done|]. split; [done|]. intros j earlier Hj. lia.
  - rewrite fmap_cons, elem_of_cons in Hin. destruct Hin as [->|Hin]; [done|].
    destruct (IH Hin) as (i & t & Hi & Hname & Hfresh).
    exists (S i), t. split; [done|]. split; [done|].
    intros [|j] earlier Hj Hearlier; simpl in Hearlier.
    + by simplify_eq.
    + apply (Hfresh j); [lia | done].
Qed.

(** One batch keeps one track of each name that is not blacklisted and
    occurs in the batch, and none of any other name. *)
Lemma countName_trackFilter (n : string) (subTracks : list singleTrack) :
  isBlacklisted n = false →
  countName n (trackFilter subTracks)
    = if decide (n ∈ name <$> subTracks) then 1 else 0.
Proof.
  intros Hbl. case_decide as Hin.
  - apply Nat.le_antisymm.
    + apply countName_NoDup. by apply trackFilter_names_from.
    + destruct (first_occurrence n subTracks Hin) as (i & t & Hi & Hname & Hfresh).
      apply (countName_present n _ t); [|done].
      apply elem_of_Array_filter. exists i. split; [done|].
      apply keepTrack_true. by rewrite Hname.
  - apply countName_absent. intros (t & -> & Ht)%list_elem_of_fmap. apply Hin.
    apply elem_of_Array_filter in Ht as (i & Hi & _).
    apply list_elem_of_fmap. exists t. split; [done|].
    by apply list_elem_of_lookup_2 with i.
Qed.

Lemma countName_batches (n : string) (batches : list (list singleTrack)) :
  isBlacklisted n = false →
  countName n (concat (trackFilter <$> batches))
    = length (filter (λ batch, n ∈ name <$> batch) batches).
Proof.
  intros Hbl. induction batches as [|batch batches IH]; [done|].
  rewrite fmap_cons. simpl. rewrite countName_app, IH, filter_cons.
  rewrite countName_trackFilter by done.
  by case_decide.
Qed.

Lemma foldr_issued {W A} (cs : list Call) (r : Run W A) :
  foldr issued r cs =
    {| settled := settled r; final := final r;
       calls := cs ++ calls r; console := console r |}.
Proof.
  induction cs as [|c cs IH]; simpl; [by destruct r|].
  by rewrite IH.
Qed.

(** C3.  When every batch is fetched, [getTracks] issues one [getAlbums]
    call per batch, in batch order, filters the tracks of each batch on their
    own and returns the filtered batches concatenated in batch order.  So a
    name that is not blacklisted is returned once for every batch in which it
    occurs: repeated inside a batch it is kept once, repeated in two batches
    it is kept in both. *)
Theorem getTracks_dedup_per_batch
    (convertToSubArray : list string → list (list string))
    (rt : Runtime) (w w' : World rt) (albums : list string)
    (ds : list AlbumsResponse) :
  fetchBatches rt (convertToSubArray albums) w = (inr ds, w') →
  let r := run rt (getTracks convertToSubArray albums) w in
  let batches := collectSubTracks <$> ds in
  ∃ tracks,
    settled r = inr (Value tracks) ∧
    calls r = getAlbums <$> convertToSubArray albums ∧
    tracks = concat (trackFilter <$> batches) ∧
    ∀ n, isBlacklisted n = false →
         countName n tracks
           = length (filter (λ batch, n ∈ name <$> batch) batches).
Proof.
  intros Hfetch r batches. subst r. unfold getTracks. cbv zeta.
  pose proof (run_try_forSubArrays rt
                (λ tracks, Resolve (Value (concat tracks)))
                (λ err, Resolve (isError err))
                (convertToSubArray albums) [] w) as Hrun.
  rewrite Hfetch in Hrun. rewrite Hrun, foldr_issued. cbn.
  exists (concat (trackFilter <$> batches)).
  assert (((λ data, trackFilter (collectSubTracks data)) <$> ds)
            = trackFilter <$> batches) as ->.
  { subst batches. by rewrite <- list_fmap_compose. }
  split; [done|]. split; [by rewrite app_nil_r|]. split; [done|].
  intros n Hbl. by apply countName_batches.
Qed.

Lemma getTracks_dedup_per_batch_witness :
  ∃ tracks,
    settled (run (onlineFor 5) (getTracks (λ albums, split albums 20) twentyOneAlbums) 0)
      = inr (Value tracks) ∧
    countName "Intro" tracks = 2.
Proof.
  destruct (getTracks_dedup_per_batch (λ albums, split albums 20) (onlineFor 5) 0 2
              twentyOneAlbums
              [ cannedAnswer (getAlbums (take 20 twentyOneAlbums));
                cannedAnswer (getAlbums (drop 20 twentyOneAlbums)) ])
    as (tracks & Hsettled & _ & _ & Hcount).
  - vm_compute. reflexivity.
  - exists tracks. split; [exact Hsettled|].
    rewrite Hcount by (vm_compute; reflexivity).
    vm_compute. reflexivity.
Defined.

(** C4.  When the batches before some batch are fetched and the fetch of
    that batch is rejected with [err], [getTracks] stops there: its promise
    is fulfilled with [{ isError: true, err }], which carries no track of
    the batches fetched before. *)
Theorem getTracks_failure_discards
    (convertToSubArray : list string → list (list string))
    (rt : Runtime) (w w1 w2 : World rt) (albums : list string)
    (fetched : list (list string)) (failing : list string)
    (remaining : list (list string)) (ds : list AlbumsResponse) (err : JsError) :
  convertToSubArray albums = fetched ++ failing :: remaining →
  fetchBatches rt fetched w = (inr ds, w1) →
  spotifyApi rt (getAlbums failing) w1 = (inl err, w2) →
  let r := run rt (getTracks convertToSubArray albums) w in
  settled r = inr (isError err) ∧
  (∀ tracks, settled r ≠ inr (Value tracks)) ∧
  final r = w2.
Proof.
  intros Hsplit Hfetched Hfail r. subst r. unfold getTracks. cbv zeta.
  pose proof (run_try_forSubArrays rt
                (λ tracks, Resolve (Value (concat tracks)))
                (λ err, Resolve (isError err))
                (convertToSubArray albums) [] w) as Hrun.
  rewrite Hsplit, fetchBatches_app, Hfetched in Hrun. simpl in Hrun.
  rewrite Hfail in Hrun. destruct Hrun as [Hsettled Hfinal].
  rewrite Hsplit, Hsettled, Hfinal. cbn. by repeat split.
Qed.

Lemma getTracks_failure_discards_witness :
  settled (run (onlineFor 1) (getTracks (λ albums, split albums 20) twentyOneAlbums) 0)
    = inr (isError (WebapiError "Too Many Requests")).
Proof.
  apply (getTracks_failure_discards (λ albums, split albums 20) (onlineFor 1) 0 1 2
           twentyOneAlbums [take 20 twentyOneAlbums] (drop 20 twentyOneAlbums) []
           [cannedAnswer (getAlbums (take 20 twentyOneAlbums))]
           (WebapiError "Too Many Requests")); reflexivity.
Defined.

(** * Further properties *)

Local Set Warnings "-clear-no-such-hyp".

(** ** The track filter as a single pass *)

Lemma keepTrack_seen (track : singleTrack) (index : nat) (self : list singleTrack) :
  keepTrack track index self
    = negb (isBlacklisted (name track)
            || bool_decide (name track ∈@{gset string}
                              list_to_set (name <$> take index self))).
Proof.
  unfold keepTrack. destruct (isBlacklisted (name track)); [done|]. simpl.
  destruct (existsb _ _) eqn:Hscan.
  - apply existsb_true_iff in Hscan as (earlier & Hin & Heq).
    apply bool_decide_eq_true in Heq.
    rewrite bool_decide_eq_true_2; [done|].
    apply elem_of_list_to_set, list_elem_of_fmap. by exists earlier.
  - rewrite existsb_false_iff in Hscan.
    rewrite bool_decide_eq_false_2; [done|].
    intros (earlier & Heq & Hin)%elem_of_list_to_set%list_elem_of_fmap.
    apply Hscan in Hin. by apply bool_decide_eq_false in Hin.
Qed.

Lemma Array_filter_from_singlePass (self : list singleTrack) index rest :
  (∀ j, rest !! j = self !! (index + j)) →
  Array_filter_from keepTrack self index rest
    = singlePassFilter (list_to_set (name <$> take index self)) rest.
Proof.
  revert index. induction rest as [|x rest IH]; intros index Hrest; [done|].
  assert (self !! index = Some x) as Hx.
  { specialize (Hrest 0). by rewrite Nat.add_0_r in Hrest. }
  assert (∀ j, rest !! j = self !! (S index + j)) as Hrest'.
  { intros j. replace (S index + j) with (index + S j) by lia.
    by rewrite <- Hrest. }
  assert (list_to_set (name <$> take (S index) self)
            = ({[name x]} ∪ list_to_set (name <$> take index self) : gset string))
    as Hseen.
  { rewrite (take_S_r _ _ _ Hx), fmap_app, list_to_set_app_L. simpl. set_solver. }
  simpl. rewrite keepTrack_seen, (IH _ Hrest'), Hseen.
  by destruct (_ || _).
Qed.

Lemma trackFilter_eq_singlePass (subTracks : list singleTrack) :
  trackFilter subTracks = singlePassFilter ∅ subTracks.
Proof.
  unfold trackFilter, Array_filter.
  by rewrite Array_filter_from_singlePass.
Qed.

(** X1.  The filter of [getTracks], which rescans the earlier part of the
    array for every track, returns what a single pass with a set of seen
    names returns; started in the middle of an array, it is that pass
    started with the names of the part before. *)
Theorem trackFilter_single_pass (before subTracks : list singleTrack) :
  trackFilter subTracks = singlePassFilter ∅ subTracks ∧
  Array_filter_from keepTrack (before ++ subTracks) (length before) subTracks
    = singlePassFilter (list_to_set (name <$> before)) subTracks.
Proof.
  split; [apply trackFilter_eq_singlePass|].
  rewrite Array_filter_from_singlePass.
  - by rewrite take_app_length.
  - intros j. by rewrite lookup_app_r, Nat.add_comm, Nat.add_sub by lia.
Qed.

Lemma singlePassFilter_app (seen : gset string) (l1 l2 : list singleTrack) :
  singlePassFilter seen (l1 ++ l2)
    = singlePassFilter seen l1
        ++ singlePassFilter (list_to_set (name <$> l1) ∪ seen) l2.
Proof.
  revert seen. induction l1 as [|t l1 IH]; intros seen; simpl.
  - f_equal. set_solver.
  - rewrite IH.
    replace (list_to_set (name <$> l1) ∪ ({[name t]} ∪ seen))
      with ({[name t]} ∪ list_to_set (name <$> l1) ∪ seen) by set_solver.
    by destruct (_ || _).
Qed.

Lemma singlePassFilter_mono (seen seen' : gset string) (l : list singleTrack) :
  seen ⊆ seen' →
  singlePassFilter seen' l `sublist_of` singlePassFilter seen l.
Proof.
  revert seen seen'. induction l as [|t l IH]; intros seen seen' Hsub; simpl.
  { constructor. }
  assert ({[name t]} ∪ seen ⊆ {[name t]} ∪ seen') as Hsub' by set_solver.
  specialize (IH _ _ Hsub').
  destruct (isBlacklisted (name t)); simpl; [done|].
  destruct (decide (name t ∈ seen)) as [Hin|Hout].
  - rewrite !bool_decide_eq_true_2 by set_solver. done.
  - rewrite (bool_decide_eq_false_2 (name t ∈ seen)) by done.
    case_bool_decide; [by apply sublist_cons | by apply sublist_skip].
Qed.

Lemma singlePassFilter_fixed (seen : gset string) (l : list singleTrack) :
  (∀ t, t ∈ l → isBlacklisted (name t) = false ∧ name t ∉ seen) →
  NoDup (name <$> l) →
  singlePassFilter seen l = l.
Proof.
  revert seen. induction l as [|t l IH]; intros seen Hall Hnd; [done|].
  rewrite fmap_cons in Hnd. apply NoDup_cons in Hnd as [Hfresh Hnd].
  destruct (Hall t) as [Hbl Hseen]; [by left|].
  simpl. rewrite Hbl, bool_decide_eq_false_2 by done. simpl. f_equal.
  apply IH; [|done]. intros u Hu.
  destruct (Hall u) as [Hblu Hseenu]; [by right|]. split; [done|].
  intros [Heq%elem_of_singleton|?]%elem_of_union; [|done].
  apply Hfresh. rewrite <- Heq. by apply list_elem_of_fmap_2.
Qed.

Lemma trackFilter_elem_not_blacklisted (S : list singleTrack) (t : singleTrack) :
  t ∈ trackFilter S → isBlacklisted (name t) = false.
Proof.
  intros (i & _ & Hkeep)%elem_of_Array_filter.
  by apply keepTrack_true in Hkeep as [? _].
Qed.

Lemma trackFilter_NoDup (S : list singleTrack) : NoDup (name <$> trackFilter S).
Proof. by apply trackFilter_names_from. Qed.

(** X2.  Filtering twice changes nothing. *)
Theorem trackFilter_idempotent (S : list singleTrack) :
  trackFilter (trackFilter S) = trackFilter S.
Proof.
  rewrite (trackFilter_eq_singlePass (trackFilter S)).
  apply singlePassFilter_fixed; [|apply trackFilter_NoDup].
  intros t Ht. split; [by apply trackFilter_elem_not_blacklisted with S | set_solver].
Qed.

(** X3.  The filter returns its input unchanged exactly when no name is
    blacklisted and no name occurs twice. *)
Theorem trackFilter_unchanged_iff (S : list singleTrack) :
  trackFilter S = S ↔
  (∀ t, t ∈ S → isBlacklisted (name t) = false) ∧ NoDup (name <$> S).
Proof.
  split.
  - intros Heq. split.
    + intros t Ht. apply trackFilter_elem_not_blacklisted with S. by rewrite Heq.
    + rewrite <- Heq. apply trackFilter_NoDup.
  - intros [Hbl Hnd]. rewrite trackFilter_eq_singlePass.
    apply singlePassFilter_fixed; [|done].
    intros t Ht. split; [by apply Hbl | set_solver].
Qed.

(** X4.  Only the names matter: rewriting the other fields of the tracks
    (any map that keeps every name) commutes with the filter, so which
    positions survive does not depend on [uri] or [albumName]. *)
Theorem trackFilter_relabel (f : singleTrack → singleTrack) (S : list singleTrack) :
  (∀ t, name (f t) = name t) →
  trackFilter (f <$> S) = f <$> trackFilter S.
Proof.
  intros Hname. rewrite !trackFilter_eq_singlePass. generalize (∅ : gset string).
  induction S as [|t S IH]; intros seen; [done|].
  rewrite fmap_cons. simpl. rewrite Hname, !IH.
  by destruct (_ || _).
Qed.

Lemma trackFilter_relabel_witness :
  let anonymous t := {| name := name t; albumName := ""; uri := "" |} in
  let a := {| name := "Intro"; albumName := "One"; uri := "spotify:track:1" |} in
  let b := {| name := "Intro"; albumName := "Two"; uri := "spotify:track:2" |} in
  trackFilter [anonymous a; anonymous b] = [anonymous a].
Proof.
  intros anonymous a b.
  change [anonymous a; anonymous b] with (anonymous <$> [a; b]).
  rewrite (trackFilter_relabel anonymous [a; b]); [|reflexivity].
  vm_compute. reflexivity.
Defined.

(** X5.  Tracks added at the end never change what was decided before
    them: the filter of [S1 ++ S2] starts with the filter of [S1], and what
    follows is a subsequence of the filter of [S2] (the tracks of [S2] whose
    name did not occur in [S1]). *)
Theorem trackFilter_app (S1 S2 : list singleTrack) :
  ∃ kept,
    trackFilter (S1 ++ S2) = trackFilter S1 ++ kept ∧
    kept `sublist_of` trackFilter S2 ∧
    ∀ t, t ∈ kept ↔ t ∈ trackFilter S2 ∧ name t ∉ name <$> S1.
Proof.
  exists (singlePassFilter (list_to_set (name <$> S1) ∪ ∅) S2).
  rewrite !trackFilter_eq_singlePass, singlePassFilter_app.
  split; [done|]. split; [apply singlePassFilter_mono; set_solver|].
  assert (∀ (extra seen : gset string) t,
            t ∈ singlePassFilter (extra ∪ seen) S2 ↔
            t ∈ singlePassFilter seen S2 ∧ name t ∉ extra) as Hgen.
  { clear S1. induction S2 as [|u S2 IH]; intros extra seen t; simpl.
    { rewrite elem_of_nil. tauto. }
    replace ({[name u]} ∪ (extra ∪ seen)) with (extra ∪ ({[name u]} ∪ seen))
      by set_solver.
    destruct (isBlacklisted (name u)); simpl; [apply IH|].
    destruct (decide (name u ∈ seen)) as [Hin|Hout].
    - rewrite !bool_decide_eq_true_2 by set_solver. apply IH.
    - rewrite (bool_decide_eq_false_2 (name u ∈ seen)) by done.
      case_bool_decide as Hextra.
      + rewrite elem_of_cons, IH. split; [tauto|].
        intros [[->|?] Hn]; [|tauto]. set_solver.
      + rewrite !elem_of_cons, IH. split; [|tauto].
        intros [->|?]; [|tauto]. set_solver. }
  intros t. rewrite Hgen. by rewrite elem_of_list_to_set.
Qed.

Lemma singlePassFilter_concat (seen : gset string) (batches : list (list singleTrack)) :
  singlePassFilter seen (concat batches)
    `sublist_of` concat (singlePassFilter seen <$> batches).
Proof.
  revert seen. induction batches as [|batch batches IH]; intros seen; simpl.
  { constructor. }
  rewrite singlePassFilter_app. apply sublist_app; [done|].
  etrans; [|apply IH]. apply singlePassFilter_mono. set_solver.
Qed.

(** X6.  Filtering the batches one by one and concatenating never loses a
    track that filtering all the tracks at once would keep: the filter of
    the concatenation is a subsequence of the concatenation of the filters. *)
Theorem trackFilter_concat_sublist (batches : list (list singleTrack)) :
  trackFilter (concat batches) `sublist_of` concat (trackFilter <$> batches).
Proof.
  rewrite trackFilter_eq_singlePass.
  assert (trackFilter <$> batches = singlePassFilter ∅ <$> batches) as ->.
  { apply list_fmap_ext. intros _ batch _. apply trackFilter_eq_singlePass. }
  apply singlePassFilter_concat.
Qed.

(** ** The blacklist *)

Lemma append_assoc (a b c : string) : (a +:+ b) +:+ c = a +:+ b +:+ c.
Proof. induction a as [|x a IH]; [done|]. by rewrite !append_String, IH. Qed.

Lemma toLowerCase_app (a b : string) :
  toLowerCase (a +:+ b) = toLowerCase a +:+ toLowerCase b.
Proof.
  induction a as [|x a IH]; [done|].
  rewrite append_String. simpl. by rewrite IH, append_String.
Qed.

Lemma includes_trans (s word part : string) :
  includes s word = true → includes word part = true → includes s part = true.
Proof.
  intros (pre & post & ->)%includes_spec (pre' & post' & ->)%includes_spec.
  apply includes_spec. exists (pre +:+ pre'), (post' +:+ post).
  by rewrite !append_assoc.
Qed.

(** X7.  The blacklist is redundant: "remix", "- live", "live-" and the
    second "tour" never decide anything, a name is excluded exactly when
    its lower-cased form contains one of the nine remaining words. *)
Theorem isBlacklisted_roots (n : string) :
  isBlacklisted n
    = existsb (λ word, includes (toLowerCase n) word) blacklistedRoots.
Proof.
  unfold isBlacklisted, blacklistedWords, blacklistedRoots. simpl.
  set (s := toLowerCase n).
  pose proof (λ H, includes_trans s "remix" "mix" H eq_refl) as Hremix.
  pose proof (λ H, includes_trans s "- live" "live" H eq_refl) as Hlive1.
  pose proof (λ H, includes_trans s "live-" "live" H eq_refl) as Hlive2.
  destruct (includes s "remix"), (includes s "mix");
    try (by discriminate Hremix); simpl;
  destruct (includes s "edit"), (includes s "radio"); simpl; try done;
  destruct (includes s "- live"), (includes s "live-"), (includes s "live");
    try (by discriminate Hlive1); try (by discriminate Hlive2); simpl;
  destruct (includes s " ver."), (includes s "version"), (includes s "tour");
    simpl; try done;
  by destruct (includes s "event"), (includes s "concert").
Qed.

(** X8.  The keyword test matches anywhere in the name and in any case: a
    name that contains, in whatever case and even inside a longer word, a
    blacklisted word is excluded (so "Editorial" is). *)
Theorem isBlacklisted_anywhere (word pre mid post : string) :
  word ∈ blacklistedWords →
  toLowerCase mid = word →
  isBlacklisted (pre +:+ mid +:+ post) = true.
Proof.
  intros Hword Hmid. apply isBlacklisted_spec.
  exists word, (toLowerCase pre), (toLowerCase post).
  split; [done|]. by rewrite !toLowerCase_app, Hmid.
Qed.

Lemma isBlacklisted_anywhere_witness : isBlacklisted "Editorial" = true.
Proof.
  apply (isBlacklisted_anywhere "edit" "" "Edit" "orial").
  - compute_done.
  - reflexivity.
Defined.

(** ** The album quota, further *)

(** X9.  For a positive number of artists the quota lies between 0 and 50,
    and the albums selected over all the artists number at most 100: at most
    50 in general, and 100 for exactly 20 artists. *)
Theorem maxAlbums_budget (n : Z) :
  (0 < n)%Z →
  (0 ≤ maxAlbums n ≤ 50)%Z ∧
  (n * maxAlbums n ≤ 100)%Z ∧
  (n ≠ 20%Z → (n * maxAlbums n ≤ 50)%Z) ∧
  (20 * maxAlbums 20 = 100)%Z.
Proof.
  intros Hn. unfold maxAlbums.
  pose proof (Z.div_mod 100 (n * 2)) as Hdm.
  pose proof (Z.mod_pos_bound 100 (n * 2)) as Hmod.
  assert (0 ≤ 100 / (n * 2))%Z as Hq by (apply Z.div_pos; lia).
  destruct (Z.eqb_spec n 20) as [->|Hne]; simpl.
  - split; [lia|]. split; [lia|]. split; [done|lia].
  - split; [nia|]. split; [nia|]. split; [intros _; nia | lia].
Qed.

Lemma maxAlbums_budget_witness : (3 * maxAlbums 3 ≤ 50)%Z.
Proof.
  destruct (maxAlbums_budget 3) as (_ & _ & Hfifty & _); [lia|].
  apply Hfifty. lia.
Defined.

(** X10.  Away from 20 the quota never grows with the number of artists;
    20 is the exception, where each artist gets more albums than with 19
    or with 21 artists. *)
Theorem maxAlbums_antitone (n m : Z) :
  (0 < n ≤ m)%Z → n ≠ 20%Z → m ≠ 20%Z →
  (maxAlbums m ≤ maxAlbums n)%Z ∧
  (maxAlbums 19 < maxAlbums 20)%Z ∧
  (maxAlbums 21 < maxAlbums 20)%Z.
Proof.
  intros Hnm Hn Hm. split; [|by vm_compute].
  unfold maxAlbums.
  destruct (Z.eqb_spec n 20); [done|]. destruct (Z.eqb_spec m 20); [done|].
  apply Z.div_le_compat_l; lia.
Qed.

Lemma maxAlbums_antitone_witness : (maxAlbums 30 ≤ maxAlbums 7)%Z.
Proof. apply (maxAlbums_antitone 7 30); lia. Defined.

(** ** [getArtistsAlbums], every path *)

(** Every run of [getArtistsAlbums]: either an error was caught, after the
    search alone or after the album request, or the album request was
    fulfilled and the ids are those of the survivors, all of them or the
    first [maxAlbums] of the sorted array. *)
Lemma getArtistsAlbums_outcome (rt : Runtime) (w : World rt)
    (artist : string) (n : Z) :
  let search := searchArtists artist {| search_limit := 1; search_offset := 0 |} in
  let options := {| limit := 10; album_type := "album"; include_groups := "album" |} in
  let r := run rt (getArtistsAlbums artist n) w in
  console r = [] ∧
  ((∃ err, settled r = inr (caughtErr err) ∧
           (calls r = [search] ∨
            ∃ artistId, calls r = [search; getArtistAlbums artistId options])) ∨
   (∃ artistId data w1 w2 kept,
      spotifyApi rt (getArtistAlbums artistId options) w1 = (inr data, w2) ∧
      calls r = [search; getArtistAlbums artistId options] ∧
      settled r = inr (albumIds (album_id <$> kept)) ∧
      let surviving := Array_filter keepAlbum (body_items data) in
      ((Z.of_nat (length surviving) ≤ maxAlbums n)%Z ∧ kept = surviving ∨
       (maxAlbums n < Z.of_nat (length surviving))%Z ∧
       ∃ sorted, kept = Array_slice0 sorted (maxAlbums n)))).
Proof.
  intros search options r.
  assert (r = run rt (getArtistsAlbums artist n) w) as Hr by done. clearbody r.
  unfold getArtistsAlbums in Hr. cbv zeta in Hr. fold search options in Hr.
  revert Hr. generalize (maxAlbums n) as quota. intros quota Hr.
  destruct (spotifyApi rt search w) as [[err|_data] w1] eqn:Hsearch.
  { rewrite (run_try_await_rejected rt search _ _ w w1 err Hsearch) in Hr.
    subst r. cbn. split; [done|]. left. exists err. split; [done | by left]. }
  rewrite (run_try_await_fulfilled rt search _ _ w w1 _data Hsearch) in Hr.
  unfold first_artist_id in Hr.
  assert (∀ artistId : option string,
    let r := run rt (tryCatch
      (Resolve artistId ≫= λ artistId,
         await (getArtistAlbums artistId options) ≫= λ data,
           if (quota >=? Z.of_nat (length (Array_filter keepAlbum (body_items data))))%Z
           then Resolve (albumIds (album_id <$> Array_filter keepAlbum (body_items data)))
           else SortRandom (Array_filter keepAlbum (body_items data)) Resolve
                  ≫= λ sortedAlbum,
                     Resolve (albumIds (album_id <$> Array_slice0 sortedAlbum quota)))
      (λ err, Resolve (caughtErr err))) w1 in
    console r = [] ∧
    ((∃ err, settled r = inr (caughtErr err) ∧
             calls r = [getArtistAlbums artistId options]) ∨
     (∃ data w2 kept,
        spotifyApi rt (getArtistAlbums artistId options) w1 = (inr data, w2) ∧
        calls r = [getArtistAlbums artistId options] ∧
        settled r = inr (albumIds (album_id <$> kept)) ∧
        ((Z.of_nat (length (Array_filter keepAlbum (body_items data))) ≤ quota)%Z ∧
         kept = Array_filter keepAlbum (body_items data) ∨
         (quota < Z.of_nat (length (Array_filter keepAlbum (body_items data))))%Z ∧
         ∃ sorted, kept = Array_slice0 sorted quota)))) as Hafter.
  { intros artistId.
    change (Resolve artistId ≫= ?k) with (k artistId). cbv beta zeta.
    destruct (spotifyApi rt (getArtistAlbums artistId options) w1)
      as [[err|data] w2] eqn:Halbums.
    { rewrite (run_try_await_rejected rt (getArtistAlbums artistId options)
                 _ _ w1 w2 err Halbums). cbn.
      split; [done|]. left. by exists err. }
    rewrite (run_try_await_fulfilled rt (getArtistAlbums artistId options)
               _ _ w1 w2 data Halbums).
    destruct (Z.geb_spec quota
                (Z.of_nat (length (Array_filter keepAlbum (body_items data)))))
      as [Hle|Hgt]; cbn.
    - split; [done|]. right. exists data, w2, (Array_filter keepAlbum (body_items data)).
      split; [done|]. split; [done|]. split; [done|]. left. split; [lia|done].
    - split; [done|]. right. eexists data, w2, _.
      split; [done|]. split; [done|]. split; [done|]. right. split; [lia|].
      by eexists. }
  destruct (body_artists_items _data) as [[|first others]|].
  - subst r. cbn. split; [done|]. left. exists TypeError_reading_id.
    split; [done | by left].
  - pose proof (Hafter (Some (artist_id first))) as Hrun. cbv zeta in Hrun.
    set (r0 := run rt _ w1) in Hrun.
    match type of Hr with _ = issued search ?x => change x with r0 in Hr end.
    clearbody r0. subst r. unfold issued. simpl.
    destruct Hrun as [Hconsole [(err & Hs & Hc)|(data & w2 & kept & Ha & Hc & Hs & Hk)]].
    + split; [done|]. left. exists err. split; [done|]. right.
      exists (Some (artist_id first)). exact (f_equal (cons search) Hc).
    + split; [done|]. right. exists (Some (artist_id first)), data, w1, w2, kept.
      split; [done|]. split; [exact (f_equal (cons search) Hc)|]. by split.
  - pose proof (Hafter None) as Hrun. cbv zeta in Hrun.
    set (r0 := run rt _ w1) in Hrun.
    match type of Hr with _ = issued search ?x => change x with r0 in Hr end.
    clearbody r0. subst r. unfold issued. simpl.
    destruct Hrun as [Hconsole [(err & Hs & Hc)|(data & w2 & kept & Ha & Hc & Hs & Hk)]].
    + split; [done|]. left. exists err. split; [done|]. right.
      exists None. exact (f_equal (cons search) Hc).
    + split; [done|]. right. exists None, data, w1, w2, kept.
      split; [done|]. split; [exact (f_equal (cons search) Hc)|]. by split.
Qed.

(** X11.  With more than 50 artists the quota is 0: whatever the catalog
    answers and however the sort orders the albums, [getArtistsAlbums] never
    returns an album id. *)
Theorem getArtistsAlbums_over_fifty_artists (rt : Runtime) (w : World rt)
    (artist : string) (n : Z) (ids : list string) :
  (50 < n)%Z →
  settled (run rt (getArtistsAlbums artist n) w) = inr (albumIds ids) →
  ids = [].
Proof.
  intros Hn Hids.
  assert (maxAlbums n = 0%Z) as Hquota.
  { unfold maxAlbums. destruct (Z.eqb_spec n 20); [lia|].
    apply Z.div_small. lia. }
  destruct (getArtistsAlbums_outcome rt w artist n)
    as [_ [(err & Hs & _)|(artistId & data & w1 & w2 & kept & _ & _ & Hs & Hk)]].
  { rewrite Hs in Hids. discriminate. }
  rewrite Hs in Hids. injection Hids as <-. cbv zeta in Hk. rewrite Hquota in Hk.
  destruct Hk as [[Hlen ->]|[_ [sorted ->]]].
  - by destruct (Array_filter keepAlbum (body_items data)); [|simpl in Hlen; lia].
  - by rewrite Array_slice0_take.
Qed.

Lemma getArtistsAlbums_over_fifty_artists_witness :
  settled (run (onlineFor 5) (getArtistsAlbums "Queen" 51) 0) = inr (albumIds []) ∧
  (50 < 51)%Z.
Proof.
  split; [|lia].
  assert (∃ ids, settled (run (onlineFor 5) (getArtistsAlbums "Queen" 51) 0)
                   = inr (albumIds ids)) as [ids Hids] by (eexists; reflexivity).
  rewrite Hids. f_equal. f_equal.
  apply (getArtistsAlbums_over_fifty_artists (onlineFor 5) 0 "Queen" 51 ids);
    [lia | exact Hids].
Defined.

(** X12.  The promise of [getArtistsAlbums] is never rejected, whatever the
    catalog does: it is always fulfilled, with ids or with the caught error.
    Nothing is written to [console.error]; the search is always the first
    call and at most one call follows it. *)
Theorem getArtistsAlbums_never_rejects (rt : Runtime) (w : World rt)
    (artist : string) (n : Z) :
  let r := run rt (getArtistsAlbums artist n) w in
  (∃ v, settled r = inr v) ∧
  console r = [] ∧
  ∃ rest,
    calls r = searchArtists artist {| search_limit := 1; search_offset := 0 |} :: rest ∧
    (length rest ≤ 1)%nat.
Proof.
  destruct (getArtistsAlbums_outcome rt w artist n)
    as [Hconsole [(err & Hs & Hc)|(artistId & data & w1 & w2 & kept & _ & Hc & Hs & _)]];
    cbv zeta.
  - split; [by eexists|]. split; [done|].
    destruct Hc as [Hc|[artistId Hc]]; rewrite Hc; eexists; split; try done; simpl; lia.
  - split; [by eexists|]. split; [done|].
    rewrite Hc. eexists. split; [done|]. simpl. lia.
Qed.

(** X13.  When the search itself is rejected with [err], the value returned
    is [err], as it was thrown, and no album request is made. *)
Theorem getArtistsAlbums_search_rejected (rt : Runtime) (w w1 : World rt)
    (artist : string) (n : Z) (err : JsError) :
  let search := searchArtists artist {| search_limit := 1; search_offset := 0 |} in
  spotifyApi rt search w = (inl err, w1) →
  let r := run rt (getArtistsAlbums artist n) w in
  settled r = inr (caughtErr err) ∧ calls r = [search] ∧ final r = w1.
Proof.
  intros search Hsearch. unfold getArtistsAlbums. cbv zeta. fold search.
  by rewrite (run_try_await_rejected rt search _ _ w w1 err Hsearch).
Qed.

Lemma getArtistsAlbums_search_rejected_witness :
  settled (run (onlineFor 0) (getArtistsAlbums "Queen" 5) 0)
    = inr (caughtErr (WebapiError "Too Many Requests")).
Proof.
  apply (getArtistsAlbums_search_rejected (onlineFor 0) 0 1 "Queen" 5
           (WebapiError "Too Many Requests")).
  reflexivity.
Defined.

(** X14.  When an artist is found but the album request is rejected with
    [err], the value returned is [err]; the two calls were issued, the album
    request with the id of the first match, a limit of 10 and the album
    type "album". *)
Theorem getArtistsAlbums_albums_rejected (rt : Runtime) (w w1 w2 : World rt)
    (artist : string) (n : Z) (_data : SearchResponse)
    (first : ArtistObject) (others : list ArtistObject) (err : JsError) :
  let search := searchArtists artist {| search_limit := 1; search_offset := 0 |} in
  let albums := getArtistAlbums (Some (artist_id first))
      {| limit := 10; album_type := "album"; include_groups := "album" |} in
  spotifyApi rt search w = (inr _data, w1) →
  body_artists_items _data = Some (first :: others) →
  spotifyApi rt albums w1 = (inl err, w2) →
  let r := run rt (getArtistsAlbums artist n) w in
  settled r = inr (caughtErr err) ∧ calls r = [search; albums] ∧ final r = w2.
Proof.
  intros search albums Hsearch Hfirst Halbums. unfold getArtistsAlbums. cbv zeta.
  fold search.
  rewrite (run_try_await_fulfilled rt search _ _ w w1 _data Hsearch).
  unfold first_artist_id. rewrite Hfirst.
  change (Resolve (Some (artist_id first)) ≫= ?k) with (k (Some (artist_id first))).
  cbv beta. fold albums.
  by rewrite (run_try_await_rejected rt albums _ _ w1 w2 err Halbums).
Qed.

Lemma getArtistsAlbums_albums_rejected_witness :
  settled (run (onlineFor 1) (getArtistsAlbums "Queen" 5) 0)
    = inr (caughtErr (WebapiError "Too Many Requests")).
Proof.
  apply (getArtistsAlbums_albums_rejected (onlineFor 1) 0 1 2 "Queen" 5
           {| body_artists_items := Some [ {| artist_id := "artist:Queen" |} ] |}
           {| artist_id := "artist:Queen" |} []
           (WebapiError "Too Many Requests")); reflexivity.
Defined.

(** X15.  When the search response has no [artists] object, the optional
    chaining yields [undefined] and the album request is made all the same,
    for an undefined artist id. *)
Theorem getArtistsAlbums_missing_artists_object (rt : Runtime) (w w1 : World rt)
    (artist : string) (n : Z) (_data : SearchResponse) :
  let search := searchArtists artist {| search_limit := 1; search_offset := 0 |} in
  spotifyApi rt search w = (inr _data, w1) →
  body_artists_items _data = None →
  calls (run rt (getArtistsAlbums artist n) w) =
    [ search;
      getArtistAlbums None
        {| limit := 10; album_type := "album"; include_groups := "album" |} ].
Proof.
  intros search Hsearch Hnone. unfold getArtistsAlbums. cbv zeta. fold search.
  generalize (maxAlbums n) as quota. intros quota.
  rewrite (run_try_await_fulfilled rt search _ _ w w1 _data Hsearch).
  unfold first_artist_id. rewrite Hnone.
  change (Resolve None ≫= ?k) with (k None). cbv beta.
  set (albums := getArtistAlbums None _).
  destruct (spotifyApi rt albums w1) as [[err|data] w2] eqn:Halbums.
  - by rewrite (run_try_await_rejected rt albums _ _ w1 w2 err Halbums).
  - rewrite (run_try_await_fulfilled rt albums _ _ w1 w2 data Halbums).
    by destruct (quota >=? _)%Z.
Qed.

Lemma getArtistsAlbums_missing_artists_object_witness :
  calls (run withoutArtistsObject (getArtistsAlbums "Queen" 5) 0) =
    [ searchArtists "Queen" {| search_limit := 1; search_offset := 0 |};
      getArtistAlbums None
        {| limit := 10; album_type := "album"; include_groups := "album" |} ].
Proof.
  apply (getArtistsAlbums_missing_artists_object withoutArtistsObject 0 1 "Queen" 5
           {| body_artists_items := None |}); reflexivity.
Defined.

(** ** [getTracks], further *)

Lemma fetchBatches_rejected_inv (rt : Runtime) (subArrays : list (list string))
    (w w2 : World rt) (err : JsError) :
  fetchBatches rt subArrays w = (inl err, w2) →
  ∃ fetched failing remaining ds w1,
    subArrays = fetched ++ failing :: remaining ∧
    fetchBatches rt fetched w = (inr ds, w1) ∧
    spotifyApi rt (getAlbums failing) w1 = (inl err, w2).
Proof.
  revert w. induction subArrays as [|b rest IH]; intros w Hfetch; simpl in Hfetch.
  { discriminate. }
  destruct (spotifyApi rt (getAlbums b) w) as [[err'|data] w1] eqn:Hb.
  - injection Hfetch as -> ->. by exists [], b, rest, [], w.
  - destruct (fetchBatches rt rest w1) as [[err'|ds] w'] eqn:Hrest; [|discriminate].
    injection Hfetch as -> ->.
    destruct (IH w1 Hrest) as (fetched & failing & remaining & ds & w1' & -> & Hf & Hfail).
    exists (b :: fetched), failing, remaining, (data :: ds), w1'.
    split; [done|]. split; [|done]. simpl. by rewrite Hb, Hf.
Qed.

(** The loop inside the [try] block, stopped by a rejection: the calls
    issued are those of the batches up to the rejected one. *)
Lemma run_try_forSubArrays_rejected (rt : Runtime) {A}
    (k : list (list singleTrack) → Async A) (handler : JsError → Async A)
    (fetched : list (list string)) (failing : list string)
    (remaining : list (list string)) (ds : list AlbumsResponse)
    (tracks : list (list singleTrack)) (w w1 w2 : World rt) (err : JsError) :
  fetchBatches rt fetched w = (inr ds, w1) →
  spotifyApi rt (getAlbums failing) w1 = (inl err, w2) →
  run rt (tryCatch (forSubArrays (fetched ++ failing :: remaining) tracks ≫= k)
            handler) w
    = foldr issued (run rt (handler err) w2)
        (getAlbums <$> (fetched ++ [failing])).
Proof.
  revert ds tracks w. induction fetched as [|b fetched IH]; intros ds tracks w Hf Hfail.
  - simpl in Hf. injection Hf as <- <-. cbn. by rewrite Hfail.
  - simpl in Hf.
    destruct (spotifyApi rt (getAlbums b) w) as [[err'|data] w'] eqn:Hb; [discriminate|].
    destruct (fetchBatches rt fetched w') as [[err'|ds'] w''] eqn:Hrest; [discriminate|].
    injection Hf as <- <-.
    specialize (IH ds' (tracks ++ [trackFilter (collectSubTracks data)]) w' Hrest Hfail).
    cbn. rewrite Hb. cbn. by rewrite IH.
Qed.

Lemma getTracks_fulfilled
    (convertToSubArray : list string → list (list string))
    (rt : Runtime) (w w' : World rt) (albums : list string)
    (ds : list AlbumsResponse) :
  fetchBatches rt (convertToSubArray albums) w = (inr ds, w') →
  run rt (getTracks convertToSubArray albums) w =
    {| settled := inr (Value (concat (trackFilter <$> (collectSubTracks <$> ds))));
       final := w';
       calls := getAlbums <$> convertToSubArray albums;
       console := [] |}.
Proof.
  intros Hfetch. unfold getTracks. cbv zeta.
  pose proof (run_try_forSubArrays rt
                (λ tracks, Resolve (Value (concat tracks)))
                (λ err, Resolve (isError err))
                (convertToSubArray albums) [] w) as Hrun.
  rewrite Hfetch in Hrun. rewrite Hrun, foldr_issued. cbn.
  by rewrite app_nil_r, <- list_fmap_compose.
Qed.

Lemma elem_of_concat {A} (x : A) (ls : list (list A)) :
  x ∈ concat ls ↔ ∃ l, l ∈ ls ∧ x ∈ l.
Proof.
  rewrite list_elem_of_In, in_concat. split.
  - intros (l & Hl & Hx). exists l. by rewrite !list_elem_of_In.
  - intros (l & Hl & Hx). exists l. by rewrite <- !list_elem_of_In.
Qed.

(** X16.  The promise of [getTracks] is never rejected, whatever the
    splitter returns and whatever the catalog does: it is fulfilled with the
    tracks or with [{ isError: true, err }], and nothing is written to
    [console.error]. *)
Theorem getTracks_never_rejects
    (convertToSubArray : list string → list (list string))
    (rt : Runtime) (w : World rt) (albums : list string) :
  let r := run rt (getTracks convertToSubArray albums) w in
  (∃ v, settled r = inr v) ∧ console r = [].
Proof.
  cbv zeta.
  destruct (fetchBatches rt (convertToSubArray albums) w) as [[err|ds] w'] eqn:Hfetch.
  - destruct (fetchBatches_rejected_inv rt _ w w' err Hfetch)
      as (fetched & failing & remaining & ds & w1 & Hsplit & Hf & Hfail).
    unfold getTracks. cbv zeta. rewrite Hsplit.
    rewrite (run_try_forSubArrays_rejected rt _ _ fetched failing remaining ds
               [] w w1 w' err Hf Hfail).
    rewrite foldr_issued. cbn. split; [by eexists | done].
  - rewrite (getTracks_fulfilled convertToSubArray rt w w' albums ds Hfetch).
    cbn. split; [by eexists | done].
Qed.

(** X17.  A rejected batch stops the loop: the calls issued are those of
    the batches before it and its own, in order, and the batches after it
    are never requested. *)
Theorem getTracks_stops_at_rejection
    (convertToSubArray : list string → list (list string))
    (rt : Runtime) (w w1 w2 : World rt) (albums : list string)
    (fetched : list (list string)) (failing : list string)
    (remaining : list (list string)) (ds : list AlbumsResponse) (err : JsError) :
  convertToSubArray albums = fetched ++ failing :: remaining →
  fetchBatches rt fetched w = (inr ds, w1) →
  spotifyApi rt (getAlbums failing) w1 = (inl err, w2) →
  let r := run rt (getTracks convertToSubArray albums) w in
  calls r = getAlbums <$> (fetched ++ [failing]) ∧
  length (calls r) = S (length fetched).
Proof.
  intros Hsplit Hf Hfail. cbv zeta. unfold getTracks. cbv zeta. rewrite Hsplit.
  rewrite (run_try_forSubArrays_rejected rt _ _ fetched failing remaining ds
             [] w w1 w2 err Hf Hfail).
  rewrite foldr_issued. cbn. rewrite app_nil_r.
  split; [done|]. rewrite length_fmap, length_app. simpl. lia.
Qed.

Lemma getTracks_stops_at_rejection_witness :
  calls (run (onlineFor 0) (getTracks (λ albums, split albums 20) twentyOneAlbums) 0)
    = [getAlbums (take 20 twentyOneAlbums)].
Proof.
  apply (getTracks_stops_at_rejection (λ albums, split albums 20) (onlineFor 0) 0 0 1
           twentyOneAlbums [] (take 20 twentyOneAlbums) [drop 20 twentyOneAlbums] []
           (WebapiError "Too Many Requests")); reflexivity.
Defined.

Lemma fetchBatches_length (rt : Runtime) (subArrays : list (list string))
    (w w' : World rt) (ds : list AlbumsResponse) :
  fetchBatches rt subArrays w = (inr ds, w') → length ds = length subArrays.
Proof.
  revert w ds. induction subArrays as [|b rest IH]; intros w ds Hfetch; simpl in Hfetch.
  { by injection Hfetch as <- _. }
  destruct (spotifyApi rt (getAlbums b) w) as [[err|data] w1]; [discriminate|].
  destruct (fetchBatches rt rest w1) as [[err|ds'] w2] eqn:Hrest; [discriminate|].
  injection Hfetch as <- <-. simpl. f_equal. by apply (IH w1).
Qed.

Lemma elem_of_collectSubTracks (data : AlbumsResponse) (t : singleTrack) :
  t ∈ collectSubTracks data ↔
  ∃ item track,
    item ∈ body_albums data ∧ track ∈ tracks_items item ∧
    t = {| name := track_name track; albumName := full_name item;
           uri := track_uri track |}.
Proof.
  unfold collectSubTracks. rewrite list_elem_of_bind. split.
  - intros (item & (track & -> & Htrack)%list_elem_of_fmap & Hitem).
    by exists item, track.
  - intros (item & track & Hitem & Htrack & ->). exists item. split; [|done].
    apply list_elem_of_fmap. by exists track.
Qed.

(** X18.  Every track returned by [getTracks] comes from an album of a
    fetched batch: its name and uri are those of a track of that album, its
    [albumName] is the name of that album, and its name is not blacklisted. *)
Theorem getTracks_provenance
    (convertToSubArray : list string → list (list string))
    (rt : Runtime) (w w' : World rt) (albums : list string)
    (ds : list AlbumsResponse) :
  fetchBatches rt (convertToSubArray albums) w = (inr ds, w') →
  ∃ tracks,
    settled (run rt (getTracks convertToSubArray albums) w) = inr (Value tracks) ∧
    ∀ t, t ∈ tracks →
      isBlacklisted (name t) = false ∧
      ∃ data item track,
        data ∈ ds ∧ item ∈ body_albums data ∧ track ∈ tracks_items item ∧
        name t = track_name track ∧
        uri t = track_uri track ∧
        albumName t = full_name item.
Proof.
  intros Hfetch. rewrite (getTracks_fulfilled _ rt w w' albums ds Hfetch). cbn.
  eexists. split; [done|]. intros t (batch & Hbatch & Ht)%elem_of_concat.
  apply list_elem_of_fmap in Hbatch as (subTracks & -> & Hsub).
  apply list_elem_of_fmap in Hsub as (data & -> & Hdata).
  split; [by apply trackFilter_elem_not_blacklisted with (collectSubTracks data)|].
  apply elem_of_Array_filter in Ht as (i & Hi & _).
  apply list_elem_of_lookup_2, elem_of_collectSubTracks in Hi
    as (item & track & Hitem & Htrack & ->).
  by exists data, item, track.
Qed.

Lemma getTracks_provenance_witness :
  ∃ tracks,
    settled (run (onlineFor 5) (getTracks (λ albums, split albums 20) ["al01"]) 0)
      = inr (Value tracks) ∧
    ∀ t, t ∈ tracks → isBlacklisted (name t) = false.
Proof.
  destruct (getTracks_provenance (λ albums, split albums 20) (onlineFor 5) 0 1
              ["al01"] [cannedAnswer (getAlbums ["al01"])] eq_refl)
    as (tracks & Hsettled & Hfrom).
  exists tracks. split; [exact Hsettled|]. intros t Ht. by apply Hfrom.
Defined.

(** X19.  A name is returned at most once per batch: in the result of
    [getTracks] no name occurs more often than there are batches, and when
    the albums make a single batch the names returned are pairwise
    distinct. *)
Theorem getTracks_names_bounded_by_batches
    (convertToSubArray : list string → list (list string))
    (rt : Runtime) (w w' : World rt) (albums : list string)
    (ds : list AlbumsResponse) :
  fetchBatches rt (convertToSubArray albums) w = (inr ds, w') →
  ∃ tracks,
    settled (run rt (getTracks convertToSubArray albums) w) = inr (Value tracks) ∧
    (∀ n, (countName n tracks ≤ length (convertToSubArray albums))%nat) ∧
    ((length (convertToSubArray albums) ≤ 1)%nat → NoDup (name <$> tracks)).
Proof.
  intros Hfetch. rewrite (getTracks_fulfilled _ rt w w' albums ds Hfetch). cbn.
  pose proof (fetchBatches_length rt _ w w' ds Hfetch) as Hlen.
  eexists. split; [done|]. split.
  - intros n. rewrite <- Hlen. destruct (isBlacklisted n) eqn:Hbl.
    + rewrite countName_absent; [lia|].
      intros (t & -> & (batch & Hbatch & Ht)%elem_of_concat)%list_elem_of_fmap.
      apply list_elem_of_fmap in Hbatch as (subTracks & -> & _).
      apply trackFilter_elem_not_blacklisted in Ht. congruence.
    + rewrite countName_batches by done.
      etrans; [apply length_filter|]. by rewrite length_fmap.
  - rewrite <- Hlen. intros Hone. destruct ds as [|data [|? ?]]; simpl in *.
    + constructor.
    + rewrite app_nil_r. apply trackFilter_NoDup.
    + lia.
Qed.

Lemma getTracks_names_bounded_by_batches_witness :
  ∃ tracks,
    settled (run (onlineFor 5)
               (getTracks (λ albums, split albums 20) (take 20 twentyOneAlbums)) 0)
      = inr (Value tracks) ∧
    NoDup (name <$> tracks).
Proof.
  destruct (getTracks_names_bounded_by_batches (λ albums, split albums 20)
              (onlineFor 5) 0 1 (take 20 twentyOneAlbums)
              [cannedAnswer (getAlbums (take 20 twentyOneAlbums))] eq_refl)
    as (tracks & Hsettled & _ & Hnodup).
  exists tracks. split; [exact Hsettled|]. apply Hnodup. vm_compute. lia.
Defined.

(** X20.  When, in every fetched batch, no track name is blacklisted and no
    name occurs twice, [getTracks] returns every track of every album, in
    album and track order. *)
Theorem getTracks_returns_all
    (convertToSubArray : list string → list (list string))
    (rt : Runtime) (w w' : World rt) (albums : list string)
    (ds : list AlbumsResponse) :
  fetchBatches rt (convertToSubArray albums) w = (inr ds, w') →
  (∀ data, data ∈ ds →
     (∀ t, t ∈ collectSubTracks data → isBlacklisted (name t) = false) ∧
     NoDup (name <$> collectSubTracks data)) →
  settled (run rt (getTracks convertToSubArray albums) w)
    = inr (Value (concat (collectSubTracks <$> ds))) ∧
  length (concat (collectSubTracks <$> ds))
    = sum_list ((λ data, sum_list ((λ item, length (tracks_items item))
                                     <$> body_albums data)) <$> ds).
Proof.
  intros Hfetch Hclean. rewrite (getTracks_fulfilled _ rt w w' albums ds Hfetch). cbn.
  split.
  - do 3 f_equal. clear Hfetch. induction ds as [|data ds IH]; [done|].
    rewrite !fmap_cons. f_equal.
    + destruct (Hclean data) as [Hbl Hnd]; [by left|].
      rewrite trackFilter_eq_singlePass. apply singlePassFilter_fixed; [|done].
      intros t Ht. split; [by apply Hbl | set_solver].
    + apply IH. intros d Hd. apply Hclean. by right.
  - clear. induction ds as [|data ds IH]; [done|].
    rewrite !fmap_cons. simpl. rewrite length_app, IH. f_equal.
    unfold collectSubTracks. generalize (body_albums data) as items.
    induction items as [|item items IHi]; [done|].
    rewrite fmap_cons. simpl. rewrite length_app, length_fmap. f_equal. exact IHi.
Qed.

Lemma getTracks_returns_all_witness :
  settled (run (onlineFor 5) (getTracks (λ albums, split albums 20) ["al01"]) 0)
    = inr (Value (collectSubTracks (cannedAnswer (getAlbums ["al01"])))).
Proof.
  destruct (getTracks_returns_all (λ albums, split albums 20) (onlineFor 5) 0 1
              ["al01"] [cannedAnswer (getAlbums ["al01"])] eq_refl)
    as [Hsettled _].
  - intros data ->%list_elem_of_singleton. split.
    + apply Forall_forall. compute_done.
    + compute_done.
  - rewrite Hsettled. vm_compute. reflexivity.
Defined.

(** X21.  Whatever the catalog does, the calls of [getTracks] are the
    [getAlbums] calls of the first batches, in batch order, one per batch
    and nothing else: never more calls than batches, and none when the
    splitter returns no batch. *)
Theorem getTracks_calls_prefix
    (convertToSubArray : list string → list (list string))
    (rt : Runtime) (w : World rt) (albums : list string) :
  let r := run rt (getTracks convertToSubArray albums) w in
  calls r `prefix_of` (getAlbums <$> convertToSubArray albums) ∧
  (length (calls r) ≤ length (convertToSubArray albums))%nat ∧
  (convertToSubArray albums = [] → calls r = [] ∧ settled r = inr (Value [])).
Proof.
  cbv zeta.
  assert (calls (run rt (getTracks convertToSubArray albums) w)
            `prefix_of` (getAlbums <$> convertToSubArray albums)) as Hprefix.
  { destruct (fetchBatches rt (convertToSubArray albums) w) as [[err|ds] w'] eqn:Hfetch.
    - destruct (fetchBatches_rejected_inv rt _ w w' err Hfetch)
        as (fetched & failing & remaining & ds & w1 & Hsplit & Hf & Hfail).
      unfold getTracks. cbv zeta. rewrite Hsplit.
      rewrite (run_try_forSubArrays_rejected rt _ _ fetched failing remaining ds
                 [] w w1 w' err Hf Hfail).
      rewrite foldr_issued. cbn. rewrite app_nil_r.
      exists (getAlbums <$> remaining). by rewrite <- fmap_app, <- app_assoc.
    - by rewrite (getTracks_fulfilled convertToSubArray rt w w' albums ds Hfetch). }
  split; [done|]. split.
  - apply prefix_length in Hprefix. by rewrite length_fmap in Hprefix.
  - intros Hnone. rewrite Hnone in Hprefix. apply prefix_nil_inv in Hprefix.
    split; [done|]. unfold getTracks. by rewrite Hnone.
Qed.

(** ** The album filter *)

(** X22.  The album filter tests the keyword only: unlike the track filter
    it removes no repeated title.  It returns the albums unchanged exactly
    when no title is blacklisted, and two albums with the same title that is
    not blacklisted are both kept. *)
Theorem albumFilter_keeps_repeated_titles (items : list AlbumSimplified) :
  (Array_filter keepAlbum items = items ↔
   ∀ album, album ∈ items → isBlacklisted (album_name album) = false) ∧
  (∀ a b, album_name a = album_name b →
          isBlacklisted (album_name a) = false →
          Array_filter keepAlbum [a; b] = [a; b]).
Proof.
  split.
  - rewrite Array_filter_keepAlbum. induction items as [|x items IH].
    { split; [intros _ ? []%elem_of_nil | done]. }
    rewrite filter_cons. case_decide as Hx.
    + split.
      * intros Heq album [->|Hin]%elem_of_cons; [done|].
        apply IH; [congruence | done].
      * intros Hall. f_equal. apply IH. intros album Hin. apply Hall. by right.
    + split.
      * intros Heq. pose proof (length_filter
          (λ album, isBlacklisted (album_name album) = false) items) as Hlen.
        rewrite Heq in Hlen. simpl in Hlen. lia.
      * intros Hall. destruct Hx. apply Hall. by left.
  - intros a b Hab Ha. rewrite Array_filter_keepAlbum.
    rewrite !filter_cons, filter_nil, <- Hab.
    by rewrite !decide_True by done.
Qed.
